(** * NUnit report parser (src/parsers/dotnet-nunit/dotnet-nunit-parser.ts)

    A shallow embedding of [DotnetNunitParser] and of the report model of
    [dotnet-nunit-types.ts], with the properties of the parser's
    specification stated and proved over it.

    Conventions of the embedding.
    - A JavaScript string is the list of its UTF-16 code units ([list N]);
      [js "..."] writes an ASCII literal.
    - A JavaScript number is an IEEE 754 binary64 value, [spec_float] at
      precision 53 and maximal exponent 1024, with the Standard Library's
      round-to-nearest-even operations.
    - An optional property ([x?: T]) is an [option].
    - The object used as a dictionary ([trackedFiles]) is a plain object:
      its own properties are a [gmap], and a name it does not own is looked
      up in [Object.prototype].
    - A function that can throw returns a [Result]: the value returned or
      the [TypeError] thrown.
    - Arrays that the code fills with [push] are lists threaded through the
      functions that mutate them.
    - The functions that build the run result are given twice: over the
      declared types of [dotnet-nunit-types.ts], where they are total, and,
      in [DotnetNunitParser.RunTime], over the values that deserialization
      really resolves to, where any property the parser reads may be
      missing. The second are the ones [parse] runs; on a value of the
      declared types they return what the first return. *)

From Stdlib Require Import ZArith NArith Ascii String SpecFloat Lia.
From stdpp Require Import base option list gmap.

Local Open Scope N_scope.

(** ** JavaScript strings *)

Module JsString.

Abbreviation jsstring := (list N).

(** [js s] is the string whose code units are the bytes of the literal [s]. *)
Definition js (s : string) : jsstring :=
  N_of_ascii <$> list_ascii_of_string s.

(** WhiteSpace and LineTerminator code units of ECMAScript, the ones
    [String.prototype.trim] and [parseFloat] strip. *)
Definition is_white_space (c : N) : bool :=
  (c =? 9) || (c =? 10) || (c =? 11) || (c =? 12) || (c =? 13) || (c =? 32)
  || (c =? 160) || (c =? 5760) || ((8192 <=? c) && (c <=? 8202))
  || (c =? 8232) || (c =? 8233) || (c =? 8239) || (c =? 8287)
  || (c =? 12288) || (c =? 65279).

Fixpoint trimStart (s : jsstring) : jsstring :=
  match s with
  | c :: s' => if is_white_space c then trimStart s' else s
  | [] => []
  end.

Definition trimEnd (s : jsstring) : jsstring :=
  reverse (trimStart (reverse s)).

(** [s.trim()] *)
Definition trim (s : jsstring) : jsstring := trimEnd (trimStart s).

(** Puts [c] in front of the first piece of a split. *)
Definition cons_piece (c : N) (pieces : list jsstring) : list jsstring :=
  match pieces with
  | p :: ps => (c :: p) :: ps
  | [] => [[c]]
  end.

(** [s.split(sep)] for a one-character separator (the regular expressions
    [/\./g] and [/\//g] of the parser match exactly one code unit). The
    result is never empty: the empty string splits into one empty piece. *)
Fixpoint split (sep : N) (s : jsstring) : list jsstring :=
  match s with
  | [] => [[]]
  | c :: s' =>
      if c =? sep then [] :: split sep s' else cons_piece c (split sep s')
  end.

(** [s.split(/\r?\n/)]: a separator is a line feed, together with the
    carriage return in front of it when there is one. *)
Fixpoint splitLines (s : jsstring) : list jsstring :=
  match s with
  | [] => [[]]
  | 10 :: s' => [] :: splitLines s'
  | 13 :: s' =>
      match s' with
      | 10 :: s'' => [] :: splitLines s''
      | _ => cons_piece 13 (splitLines s')
      end
  | c :: s' => cons_piece c (splitLines s')
  end.

(** [pieces.join(sep)] *)
Fixpoint join (sep : jsstring) (pieces : list jsstring) : jsstring :=
  match pieces with
  | [] => []
  | [p] => p
  | p :: ps => p ++ sep ++ join sep ps
  end.

End JsString.

Import JsString.

(** ** Regular expressions

    The fragment of ECMAScript regular expressions the parser uses: a
    pattern anchored at both ends ([^...$], no flags), made of single
    characters and of capture groups that hold one greedy repetition of a
    character class. *)

Module Regex.

Inductive char_class : Type :=
  | Lit (c : N)   (* the character itself *)
  | Dot           (* [.]: anything but a line terminator *)
  | Digit.        (* [\d] *)

Inductive atom : Type :=
  | One (cls : char_class)                   (* one character *)
  | Capture (cls : char_class) (min : nat).  (* a group: star for 0, plus for 1 *)

Definition regex := list atom.

Definition is_line_terminator (c : N) : bool :=
  (c =? 10) || (c =? 13) || (c =? 8232) || (c =? 8233).

Definition is_digit (c : N) : bool := (48 <=? c) && (c <=? 57).

Definition class_matches (cls : char_class) (c : N) : bool :=
  match cls with
  | Lit d => c =? d
  | Dot => negb (is_line_terminator c)
  | Digit => is_digit c
  end.

(** Length of the longest prefix of [s] made of characters of [cls]. *)
Fixpoint run_length (cls : char_class) (s : jsstring) : nat :=
  match s with
  | c :: s' => if class_matches cls c then S (run_length cls s') else 0%nat
  | [] => 0%nat
  end.

(** A greedy repetition followed by the continuation [k]: the longest
    repetition is tried first, then the shorter ones down to [min]
    characters (backtracking). [more] counts the lengths still to try. *)
Fixpoint try_lengths (k : jsstring → option (list jsstring)) (min more : nat)
    (s : jsstring) : option (list jsstring) :=
  match more with
  | O => None
  | S more' =>
      match k (drop (min + more') s) with
      | Some caps => Some (take (min + more') s :: caps)
      | None => try_lengths k min more' s
      end
  end.

(** [exec re s] matches the whole of [s] against [re] and returns the text
    of the capture groups, in order; [None] when there is no match. *)
Fixpoint exec (re : regex) (s : jsstring) : option (list jsstring) :=
  match re with
  | [] => match s with [] => Some [] | _ => None end
  | One cls :: re' =>
      match s with
      | c :: s' => if class_matches cls c then exec re' s' else None
      | [] => None
      end
  | Capture cls min :: re' =>
      try_lengths (exec re') min (S (run_length cls s) - min) s
  end.

End Regex.

(** ** JavaScript numbers *)

Module JsNumber.

Abbreviation number := spec_float.

Definition prec : Z := 53.
Definition emax : Z := 1024.

Definition NaN : number := S754_nan.

(** [isNaN(x)] *)
Definition isNaN (x : number) : bool :=
  match x with
  | S754_nan => true
  | _ => false
  end.

(** [x * y] *)
Definition mul (x y : number) : number := SFmul prec emax x y.

(** The number nearest to the integer [z] (ties to even). *)
Definition of_Z (z : Z) : number := binary_normalize prec emax z 0 false.

(** The number nearest to [m * 10 ^ e] (ties to even), for a decimal
    literal with digits [m] and exponent [e]; [neg] is its sign. *)
Definition of_decimal (neg : bool) (m : N) (e : Z) : number :=
  match m with
  | N0 => S754_zero neg
  | Npos p =>
      match e with
      | Zneg k =>
          SFdiv prec emax (S754_finite neg p 0)
            (S754_finite false (Pos.pow 10 k) 0)
      | Z0 => binary_round prec emax neg p 0
      | Zpos k => binary_round prec emax neg (p * Pos.pow 10 k) 0
      end
  end.

(** Value of a run of decimal digits, most significant first. *)
Definition digits_value (ds : jsstring) : N :=
  foldl (λ acc d, 10 * acc + (d - 48)) 0 ds.

(** Splits off the longest prefix of decimal digits. *)
Fixpoint span_digits (s : jsstring) : jsstring * jsstring :=
  match s with
  | c :: s' =>
      if Regex.is_digit c
      then let '(ds, rest) := span_digits s' in (c :: ds, rest)
      else ([], s)
  | [] => ([], [])
  end.

(** An optional sign: [true] for a minus. *)
Definition read_sign (s : jsstring) : bool * jsstring :=
  match s with
  | 43 :: s' => (false, s')
  | 45 :: s' => (true, s')
  | _ => (false, s)
  end.

(** ExponentPart, when one starts [s]: [e] or [E], an optional sign and at
    least one digit; 0 when there is none. *)
Definition read_exponent (s : jsstring) : Z :=
  match s with
  | c :: s' =>
      if (c =? 101) || (c =? 69) then
        let '(neg, s'') := read_sign s' in
        match span_digits s'' with
        | ([], _) => 0%Z
        | (ds, _) =>
            if neg then (- Z.of_N (digits_value ds))%Z
            else Z.of_N (digits_value ds)
        end
      else 0%Z
  | [] => 0%Z
  end.

(** [parseFloat(s)]: leading white space is skipped, then the longest
    prefix that is a StrDecimalLiteral is read; [NaN] when there is none. *)
Definition parseFloat (s : jsstring) : number :=
  let '(neg, body) := read_sign (trimStart s) in
  if bool_decide (take 8 body = js "Infinity") then S754_infinity neg
  else
    let '(int_ds, rest) := span_digits body in
    match int_ds, rest with
    | [], 46 :: rest' =>
        match span_digits rest' with
        | ([], _) => NaN
        | (frac_ds, rest'') =>
            of_decimal neg (digits_value frac_ds)
              (read_exponent rest'' - Z.of_nat (length frac_ds))
        end
    | [], _ => NaN
    | _, 46 :: rest' =>
        let '(frac_ds, rest'') := span_digits rest' in
        of_decimal neg (digits_value (int_ds ++ frac_ds))
          (read_exponent rest'' - Z.of_nat (length frac_ds))
    | _, _ => of_decimal neg (digits_value int_ds) (read_exponent rest)
    end.

(** [parseFloat(x)] for a property that may be [undefined]: the argument
    is first converted to a string. *)
Definition parseFloat_opt (x : option jsstring) : number :=
  parseFloat (default (js "undefined") x).

(** [parseInt(s)] for a string of decimal digits, which is what the
    parser's pattern captures. *)
Definition parseInt_digits (s : jsstring) : number :=
  of_Z (Z.of_N (digits_value s)).

End JsNumber.

Import JsNumber.

(** ** Node's [path] module (POSIX flavour) *)

Module Path.

Definition slash : N := 47.

Definition is_slash (c : N) : bool := c =? slash.

(** The backward scan of [path.basename]: [l] holds the characters from
    the current index down to index 0, [matchedSlash] is true as long as
    only trailing slashes have been seen. The result is the base name,
    reversed. *)
Fixpoint basename_scan (l : jsstring) (matchedSlash : bool) : jsstring :=
  match l with
  | [] => []
  | c :: l' =>
      if is_slash c
      then (if matchedSlash then basename_scan l' true else [])
      else c :: basename_scan l' false
  end.

(** [path.basename(p)] *)
Definition basename (p : jsstring) : jsstring :=
  reverse (basename_scan (reverse p) true).

(** The backward scan of [path.dirname]: [l] holds the characters from the
    current index down to index 1. The result is what lies strictly
    between index 0 and the slash that ends the directory part, reversed. *)
Fixpoint dirname_scan (l : jsstring) (matchedSlash : bool) : option jsstring :=
  match l with
  | [] => None
  | c :: l' =>
      if is_slash c
      then (if matchedSlash then dirname_scan l' true else Some l')
      else dirname_scan l' false
  end.

(** [path.dirname(p)] *)
Definition dirname (p : jsstring) : jsstring :=
  match p with
  | [] => js "."
  | c0 :: rest =>
      match dirname_scan (reverse rest) true with
      | None => if is_slash c0 then js "/" else js "."
      | Some before =>
          match before with
          | [] => if is_slash c0 then js "//" else [c0]
          | _ => c0 :: reverse before
          end
      end
  end.

End Path.

(** ** The report model ([dotnet-nunit-types.ts]) *)

Record Failure : Type := mkFailure {
  stack_trace : jsstring;
  message : jsstring
}.

Record TestCaseAttrs : Type := mkTestCaseAttrs {
  tc_classname : jsstring;
  tc_file : option jsstring;
  tc_name : jsstring;
  tc_duration : jsstring;
  tc_result : jsstring
}.

Record TestCase : Type := mkTestCase {
  tc_attrs : TestCaseAttrs;
  failure : option Failure
}.

Record TestSuiteAttrs : Type := mkTestSuiteAttrs {
  ts_name : jsstring;
  ts_tests : jsstring;
  ts_errors : jsstring;
  ts_failed : jsstring;
  ts_skipped : jsstring;
  ts_passed : jsstring;
  ts_duration : jsstring
}.

#[warnings="-register-all"]
Inductive TestSuite : Type :=
  mkTestSuite (attrs : TestSuiteAttrs)
              (test_case : option (list TestCase))
              (test_suite : option (list TestSuite)).

Definition ts_attrs (ts : TestSuite) : TestSuiteAttrs :=
  let 'mkTestSuite a _ _ := ts in a.
Definition ts_test_case (ts : TestSuite) : option (list TestCase) :=
  let 'mkTestSuite _ c _ := ts in c.
Definition ts_test_suite (ts : TestSuite) : option (list TestSuite) :=
  let 'mkTestSuite _ _ n := ts in n.

(** The attributes of the run. The parser reads [time] through [$?.time],
    so the attribute object or the attribute itself may be missing. *)
Record TestRunAttrs : Type := mkTestRunAttrs {
  tr_time : option jsstring
}.

Record TestRun : Type := mkTestRun {
  tr_attrs : option TestRunAttrs;
  tr_test_suite : option (list TestSuite)
}.

Record NunitReport : Type := mkNunitReport {
  test_run : TestRun
}.

(** ** The result model ([test-results.ts], as the parser builds it) *)

Inductive TestExecutionResult : Type := success | skipped | failed.

Record TestCaseError : Type := mkTestCaseError {
  err_path : option jsstring;
  err_line : option number;
  err_details : jsstring;
  err_message : option jsstring
}.

Record TestCaseResult : Type := mkTestCaseResult {
  tcr_name : jsstring;
  tcr_result : TestExecutionResult;
  tcr_time : number;
  tcr_error : option TestCaseError
}.

Record TestGroupResult : Type := mkTestGroupResult {
  tgr_name : jsstring;
  tgr_tests : list TestCaseResult
}.

Record TestSuiteResult : Type := mkTestSuiteResult {
  tsr_name : jsstring;
  tsr_groups : list TestGroupResult;
  tsr_time : number;
  tsr_depth : nat
}.

Record TestRunResult : Type := mkTestRunResult {
  trr_path : jsstring;
  trr_suites : list TestSuiteResult;
  trr_time : option number
}.

(** [ParseOptions], the fields the parser reads. *)
Module Options.

Record ParseOptions : Type := mkParseOptions {
  parseErrors : bool;
  trackedFiles : list jsstring
}.

End Options.

(** A promise that has settled. *)
Inductive Promise (E T : Type) : Type :=
  | Resolved (v : T)
  | Rejected (e : E).

Arguments Resolved {E T} v.
Arguments Rejected {E T} e.

(** [new Error(message)] *)
Record Error : Type := mkError { error_message : jsstring }.

(** The [TypeError] that the engine throws when a property of [undefined]
    or [null] is read, when a value that is no function is called, or when
    a value that is not iterable is iterated. Its message is not modelled. *)
Inductive TypeError : Type := mkTypeError.

(** The completion of a call: a value returned, or an error thrown. *)
Inductive Result (A : Type) : Type :=
  | Return (v : A)
  | Throw (e : TypeError).

Arguments Return {A} v.
Arguments Throw {A} e.

#[global] Instance Result_ret : MRet Result := λ A, Return.
#[global] Instance Result_bind : MBind Result := λ A B f x,
  match x with
  | Return v => f v
  | Throw e => Throw e
  end.

(** Whether a completion is a return. *)
Definition returns {A} (r : Result A) : bool :=
  match r with
  | Return _ => true
  | Throw _ => false
  end.

(** [x.p] where [x] may be [undefined] or [null]: reading the property
    throws then. *)
Definition read {A} (x : option A) : Result A :=
  match x with
  | Some v => Return v
  | None => Throw mkTypeError
  end.

(** A loop that threads an array through a body that may throw. *)
Fixpoint foldlM {A B} (f : A → B → Result A) (acc : A) (l : list B)
    : Result A :=
  match l with
  | [] => Return acc
  | x :: l' => acc' ← f acc x; foldlM f acc' l'
  end.

(** What a thrown value is, for the caller of [parse]. *)
Inductive Thrown : Type :=
  | ThrownError (e : Error)
  | ThrownTypeError (e : TypeError).

(** ** Plain objects used as dictionaries *)

Module JsObject.

(** The names that every plain object inherits from [Object.prototype]. *)
Definition inherited_names : list jsstring :=
  [ js "constructor"; js "__defineGetter__"; js "__defineSetter__";
    js "hasOwnProperty"; js "__lookupGetter__"; js "__lookupSetter__";
    js "isPrototypeOf"; js "propertyIsEnumerable"; js "toString";
    js "valueOf"; js "__proto__"; js "toLocaleString" ].

(** What [object[key]] reads. An inherited value is a function or, for
    [__proto__], the prototype itself: it is neither [undefined] nor
    [null], it has no [push] and it is not iterable. *)
Inductive Property (V : Type) : Type :=
  | Own (v : V)
  | Inherited
  | Undefined.

Arguments Own {V} v.
Arguments Inherited {V}.
Arguments Undefined {V}.

(** [object[key]]: an own property first, then the prototype. *)
Definition get {V} (own : gmap jsstring V) (key : jsstring) : Property V :=
  match own !! key with
  | Some v => Own v
  | None =>
      if bool_decide (key ∈ inherited_names) then Inherited else Undefined
  end.

End JsObject.

(** ** The report as deserialization resolves it

    [parseStringPromise] resolves to whatever the text holds: [null] for
    an empty text, a root other than [test-run], elements without
    attributes (an element without attributes and children is a string,
    on which every property the parser reads is [undefined]). Only the
    properties that the parser reads are kept; each may be missing. Of
    [failure] the parse operation only tests whether it is truthy, which
    a failure that is present is (an object, or the array of the
    [failure] elements). *)

Module Raw.

Record TestCaseAttrs : Type := mkTestCaseAttrs {
  tc_classname : option jsstring;
  tc_name : option jsstring;
  tc_duration : option jsstring;
  tc_result : option jsstring
}.

Record TestCase : Type := mkTestCase {
  tc_attrs : option TestCaseAttrs;
  failure : option Failure
}.

Record TestSuiteAttrs : Type := mkTestSuiteAttrs {
  ts_name : option jsstring;
  ts_duration : option jsstring
}.

#[warnings="-register-all"]
Inductive TestSuite : Type :=
  mkTestSuite (attrs : option TestSuiteAttrs)
              (test_case : option (list TestCase))
              (test_suite : option (list TestSuite)).

Definition ts_attrs (ts : TestSuite) : option TestSuiteAttrs :=
  let 'mkTestSuite a _ _ := ts in a.
Definition ts_test_case (ts : TestSuite) : option (list TestCase) :=
  let 'mkTestSuite _ c _ := ts in c.
Definition ts_test_suite (ts : TestSuite) : option (list TestSuite) :=
  let 'mkTestSuite _ _ n := ts in n.

Record TestRun : Type := mkTestRun {
  tr_attrs : option TestRunAttrs;
  tr_test_suite : option (list TestSuite)
}.

(** The root object; [test_run] is missing when the root element has
    another name. *)
Record Root : Type := mkRoot {
  test_run : option TestRun
}.

(** The value resolved: the root object, or [null]. *)
Definition NunitReport : Type := option Root.

(** The results as they come out: the name of a group is the classname
    read, which is [undefined] when the attribute is missing. *)
Record TestGroupResult : Type := mkTestGroupResult {
  tgr_name : option jsstring;
  tgr_tests : list TestCaseResult
}.

Record TestSuiteResult : Type := mkTestSuiteResult {
  tsr_name : jsstring;
  tsr_groups : list TestGroupResult;
  tsr_time : number;
  tsr_depth : nat
}.

Record TestRunResult : Type := mkTestRunResult {
  trr_path : jsstring;
  trr_suites : list TestSuiteResult;
  trr_time : option number
}.

End Raw.

(** ** The parser ([dotnet-nunit-parser.ts]) *)

Module DotnetNunitParser.

Import Options.

(** An instance: its options and the own properties of the object
    [trackedFiles], from a file name to the tracked paths that have this
    name. *)
Record t : Type := mkParser {
  options : ParseOptions;
  trackedFiles : gmap jsstring (list jsstring)
}.

(** [array.findIndex(p)]; [None] stands for -1. *)
Fixpoint findIndex {A} (p : A → bool) (l : list A) : option nat :=
  match l with
  | [] => None
  | x :: l' => if p x then Some 0%nat else S <$> findIndex p l'
  end.

(** [array.every((x, i) => x === other[i])], counting from index [i]. An
    index out of range reads [undefined], which equals no string. *)
Fixpoint every_same_from (i : nat) (l other : list jsstring) : bool :=
  match l with
  | [] => true
  | x :: l' =>
      bool_decide (other !! i = Some x) && every_same_from (S i) l' other
  end.

Section Construction.

(** [normalizeFilePath] of [utils/path-utils]. *)
Variable normalizeFilePath : jsstring → jsstring.

(** One turn of the constructor's loop. A base name that the object
    inherits reads a value that is not nullish, so no array is created,
    and [files.push] is no function. *)
Definition track (index : gmap jsstring (list jsstring)) (filePath : jsstring)
    : Result (gmap jsstring (list jsstring)) :=
  let fileName := Path.basename filePath in
  match JsObject.get index fileName with
  | JsObject.Own files =>
      Return (<[fileName := files ++ [normalizeFilePath filePath]]> index)
  | JsObject.Undefined =>
      Return (<[fileName := [normalizeFilePath filePath]]> index)
  | JsObject.Inherited => Throw mkTypeError
  end.

(** [new DotnetNunitParser(options)] *)
Definition new (options : ParseOptions) : Result t :=
  index ← foldlM track ∅ (Options.trackedFiles options);
  Return {| options := options; trackedFiles := index |}.

End Construction.

(** [part[0] <= 'Z']: the first code unit is compared with the one of
    ['Z']; the empty string has no first code unit and the comparison with
    [undefined] is false. *)
Definition starts_upto_Z (part : jsstring) : bool :=
  match part with
  | c :: _ => c <=? 90
  | [] => false
  end.

(** The first lines of [getFilePath]: the parts of the trace path, cut at
    the first one that [starts_upto_Z]. *)
Definition packageParts (tracePath : jsstring) : list jsstring :=
  let packageParts := split 46 tracePath in
  match findIndex starts_upto_Z packageParts with
  | Some packageIndex => take packageIndex packageParts
  | None => packageParts
  end.

(** The loop of [getFilePath] over the tracked files of the given name. *)
Fixpoint getFilePath_loop (packageParts : list jsstring) (files : list jsstring)
    : option jsstring :=
  match files with
  | [] => None
  | filePath :: files' =>
      let dirs := split Path.slash (Path.dirname filePath) in
      if (length dirs <? length packageParts)%nat
      then getFilePath_loop packageParts files'
      else
        let dirs :=
          if (length packageParts <? length dirs)%nat
          then drop (length dirs - length packageParts) dirs
          else dirs in
        if every_same_from 0 packageParts dirs
        then Some filePath
        else getFilePath_loop packageParts files'
  end.

(** [None] stands for [undefined]. A file name that the object inherits
    reads a value that is not [undefined]: the package parts are computed
    all the same, and when there are some the loop [for ... of] over that
    value throws, as it is not iterable. *)
Definition getFilePath (self : t) (tracePath fileName : jsstring)
    : Result (option jsstring) :=
  match JsObject.get (trackedFiles self) fileName with
  | JsObject.Undefined => Return None
  | files =>
      let packageParts := packageParts tracePath in
      if (length packageParts =? 0)%nat then Return None
      else
        match files with
        | JsObject.Own files => Return (getFilePath_loop packageParts files)
        | _ => Throw mkTypeError
        end
  end.

(** The pattern of [exceptionThrowSource]: the three characters of "at ",
    a first group of any characters, an opening parenthesis, a second
    group of any characters, a colon, a third group of one or more
    digits, a closing parenthesis; anchored at both ends. *)
Definition re : Regex.regex :=
  [ Regex.One (Regex.Lit 97); Regex.One (Regex.Lit 116);
    Regex.One (Regex.Lit 32);
    Regex.Capture Regex.Dot 0;
    Regex.One (Regex.Lit 40);
    Regex.Capture Regex.Dot 0;
    Regex.One (Regex.Lit 58);
    Regex.Capture Regex.Digit 1;
    Regex.One (Regex.Lit 41) ].

(** The loop of [exceptionThrowSource] over the lines of the trace. *)
Fixpoint exceptionThrowSource_loop (self : t) (lines : list jsstring)
    : Result (option (jsstring * number)) :=
  match lines with
  | [] => Return None
  | str :: lines' =>
      match Regex.exec re str with
      | Some [tracePath; fileName; lineStr] =>
          filePath ← getFilePath self tracePath fileName;
          match filePath with
          | Some filePath => Return (Some (filePath, parseInt_digits lineStr))
          | None => exceptionThrowSource_loop self lines'
          end
      | _ => exceptionThrowSource_loop self lines'
      end
  end.

Definition exceptionThrowSource (self : t) (stackTrace : jsstring)
    : Result (option (jsstring * number)) :=
  exceptionThrowSource_loop self (splitLines stackTrace).

(** [failure] has the declared type [Failure], an object: the test
    [typeof failure === 'object'] holds and [!failure] is false. *)
Definition getTestCaseError (self : t) (tc : TestCase)
    : Result (option TestCaseError) :=
  if negb (parseErrors (options self)) then Return None
  else
    match failure tc with
    | None => Return None
    | Some failure =>
        let details := stack_trace failure in
        src ← exceptionThrowSource self details;
        Return (Some {| err_path := fst <$> src;
                        err_line := snd <$> src;
                        err_details := details;
                        err_message := Some (message failure) |})
    end.

(** A failure that is present is an object, which is truthy. *)
Definition getTestCaseResult (test : TestCase) : TestExecutionResult :=
  match failure test with
  | Some _ => failed
  | None =>
      if bool_decide (tc_result (tc_attrs test) = js "Skipped") then skipped
      else success
  end.

(** The groups under construction in [getGroups]. *)
Record Group : Type := mkGroup {
  describe : jsstring;
  tests : list TestCase
}.

(** [grp.tests.push(tc)] *)
Definition push (tc : TestCase) (grp : Group) : Group :=
  {| describe := describe grp; tests := tests grp ++ [tc] |}.

(** One turn of the first loop of [getGroups]. [find] yields the group
    itself, so the case pushed afterwards lands in the array: the group is
    designated here by its index. *)
Definition addToGroup (groups : list Group) (tc : TestCase) : list Group :=
  let classname := tc_classname (tc_attrs tc) in
  let '(groups, grp) :=
    match findIndex (λ g, bool_decide (describe g = classname)) groups with
    | Some i => (groups, i)
    | None =>
        (groups ++ [{| describe := classname; tests := [] |}], length groups)
    end in
  alter (push tc) grp groups.

(** The result built for one test case in [getGroups]. *)
Definition caseResult (tc : TestCase) : TestCaseResult :=
  let name := trim (tc_name (tc_attrs tc)) in
  let result := getTestCaseResult tc in
  let time := mul (parseFloat (tc_duration (tc_attrs tc))) (of_Z 1000) in
  {| tcr_name := name; tcr_result := result; tcr_time := time;
     tcr_error := None |}.

Definition getGroups (suite : TestSuite) : list TestGroupResult :=
  match ts_test_case suite with
  | None => []
  | Some cases =>
      let groups := foldl addToGroup [] cases in
      (λ grp, {| tgr_name := describe grp;
                 tgr_tests := caseResult <$> tests grp |}) <$> groups
  end.

(** The result pushed for one suite by [getTestSuiteResultRecursive]. *)
Definition suiteResult (ts : TestSuite) (depth : nat) : TestSuiteResult :=
  let name := trim (ts_name (ts_attrs ts)) in
  let time := mul (parseFloat (ts_duration (ts_attrs ts))) (of_Z 1000) in
  let groups := getGroups ts in
  {| tsr_name := name; tsr_groups := groups; tsr_time := time;
     tsr_depth := depth |}.

(** The callback of [testSuites.map] in [getTestSuiteResultRecursive]; the
    array [suiteResults] it pushes to is passed in and returned. *)
Fixpoint visitSuite (ts : TestSuite) (suiteResults : list TestSuiteResult)
    (depth : nat) {struct ts} : list TestSuiteResult :=
  let sr := suiteResult ts depth in
  let suiteResults := suiteResults ++ [sr] in
  if (length (tsr_groups sr) =? 0)%nat then
    match ts_test_suite ts with
    | Some nestedTestSuites =>
        (fix each (l : list TestSuite) (acc : list TestSuiteResult) :=
           match l with
           | [] => acc
           | ts' :: l' => each l' (visitSuite ts' acc (S depth))
           end) nestedTestSuites suiteResults
    | None => suiteResults
    end
  else suiteResults.

Definition getTestSuiteResultRecursive (testSuites : option (list TestSuite))
    (suiteResults : list TestSuiteResult) (depth : nat)
    : list TestSuiteResult :=
  match testSuites with
  | Some testSuites =>
      foldl (λ acc ts, visitSuite ts acc depth) suiteResults testSuites
  | None => suiteResults
  end.

Definition getTestRunResult (filePath : jsstring) (nunit : NunitReport)
    : TestRunResult :=
  let testSuites := tr_test_suite (test_run nunit) in
  let suites := getTestSuiteResultRecursive testSuites [] 0 in
  let seconds := parseFloat_opt (tr_attrs (test_run nunit) ≫= tr_time) in
  let time := if isNaN seconds then None else Some (mul seconds (of_Z 1000)) in
  {| trr_path := filePath; trr_suites := suites; trr_time := time |}.

(** *** The same functions over the values met at run time

    Each function below is the function of the same name above, read
    without the assumption that the report has the declared types: a
    property of a missing object is read with [read], which throws. *)

Module RunTime.

(** A failure that is present is truthy. *)
Definition getTestCaseResult (test : Raw.TestCase)
    : Result TestExecutionResult :=
  match Raw.failure test with
  | Some _ => Return failed
  | None =>
      attrs ← read (Raw.tc_attrs test);
      Return (if bool_decide (Raw.tc_result attrs = Some (js "Skipped"))
              then skipped else success)
  end.

(** The groups under construction in [getGroups]; [describe] is the
    classname read, [undefined] included. *)
Record Group : Type := mkGroup {
  describe : option jsstring;
  tests : list Raw.TestCase
}.

Definition push (tc : Raw.TestCase) (grp : Group) : Group :=
  {| describe := describe grp; tests := tests grp ++ [tc] |}.

(** One turn of the first loop of [getGroups]: [tc.$.classname] is read
    by the callback of [find] when there is a group, and for the new group
    when none is found; it is read in every case. *)
Definition addToGroup (groups : list Group) (tc : Raw.TestCase)
    : Result (list Group) :=
  attrs ← read (Raw.tc_attrs tc);
  let classname := Raw.tc_classname attrs in
  let '(groups, grp) :=
    match findIndex (λ g, bool_decide (describe g = classname)) groups with
    | Some i => (groups, i)
    | None =>
        (groups ++ [{| describe := classname; tests := [] |}], length groups)
    end in
  Return (alter (push tc) grp groups).

(** The result built for one test case in [getGroups]. *)
Definition caseResult (tc : Raw.TestCase) : Result TestCaseResult :=
  attrs ← read (Raw.tc_attrs tc);
  name ← read (Raw.tc_name attrs);
  let name := trim name in
  result ← getTestCaseResult tc;
  let time := mul (parseFloat_opt (Raw.tc_duration attrs)) (of_Z 1000) in
  Return {| tcr_name := name; tcr_result := result; tcr_time := time;
            tcr_error := None |}.

(** [array.map(f)] with a callback that may throw is [mapM f]. *)
Definition getGroups (suite : Raw.TestSuite)
    : Result (list Raw.TestGroupResult) :=
  match Raw.ts_test_case suite with
  | None => Return []
  | Some cases =>
      groups ← foldlM addToGroup [] cases;
      mapM (λ grp,
              tests ← mapM caseResult (tests grp);
              Return {| Raw.tgr_name := describe grp;
                        Raw.tgr_tests := tests |})
           groups
  end.

(** The callback of [testSuites.map] in [getTestSuiteResultRecursive]. *)
Fixpoint visitSuite (ts : Raw.TestSuite)
    (suiteResults : list Raw.TestSuiteResult) (depth : nat) {struct ts}
    : Result (list Raw.TestSuiteResult) :=
  attrs ← read (Raw.ts_attrs ts);
  name ← read (Raw.ts_name attrs);
  let name := trim name in
  let time := mul (parseFloat_opt (Raw.ts_duration attrs)) (of_Z 1000) in
  groups ← getGroups ts;
  let sr := {| Raw.tsr_name := name; Raw.tsr_groups := groups;
               Raw.tsr_time := time; Raw.tsr_depth := depth |} in
  let suiteResults := suiteResults ++ [sr] in
  if (length groups =? 0)%nat then
    match Raw.ts_test_suite ts with
    | Some nestedTestSuites =>
        (fix each (l : list Raw.TestSuite) (acc : list Raw.TestSuiteResult) :=
           match l with
           | [] => Return acc
           | ts' :: l' => acc' ← visitSuite ts' acc (S depth); each l' acc'
           end) nestedTestSuites suiteResults
    | None => Return suiteResults
    end
  else Return suiteResults.

Definition getTestSuiteResultRecursive
    (testSuites : option (list Raw.TestSuite))
    (suiteResults : list Raw.TestSuiteResult) (depth : nat)
    : Result (list Raw.TestSuiteResult) :=
  match testSuites with
  | Some testSuites =>
      foldlM (λ acc ts, visitSuite ts acc depth) suiteResults testSuites
  | None => Return suiteResults
  end.

(** [nunit['test-run']['test-suite']] throws when [nunit] is [null] and
    when it has no [test-run]; the time is read through [$?.time]. *)
Definition getTestRunResult (filePath : jsstring) (nunit : Raw.NunitReport)
    : Result Raw.TestRunResult :=
  root ← read nunit;
  run ← read (Raw.test_run root);
  let testSuites := Raw.tr_test_suite run in
  suites ← getTestSuiteResultRecursive testSuites [] 0;
  let seconds := parseFloat_opt (Raw.tr_attrs run ≫= tr_time) in
  let time := if isNaN seconds then None else Some (mul seconds (of_Z 1000)) in
  Return {| Raw.trr_path := filePath; Raw.trr_suites := suites;
            Raw.trr_time := time |}.

End RunTime.

Section Parsing.

(** [parseStringPromise] of xml2js, and the rendering [`${e}`] of the
    value it rejects with. *)
Context {XmlError : Type}.
Variable parseStringPromise : jsstring → Promise XmlError Raw.NunitReport.
Variable toString : XmlError → jsstring.

Definition getNunitReport (filePath content : jsstring)
    : Promise Error Raw.NunitReport :=
  match parseStringPromise content with
  | Resolved report => Resolved report
  | Rejected e =>
      Rejected
        (mkError (js "Invalid XML at " ++ filePath ++ [10; 10] ++ toString e))
  end.

(** What [getTestRunResult] throws is not caught: the promise of [parse]
    is rejected with it. *)
Definition parse (self : t) (filePath content : jsstring)
    : Promise Thrown Raw.TestRunResult :=
  match getNunitReport filePath content with
  | Resolved reportOrSuite =>
      match RunTime.getTestRunResult filePath reportOrSuite with
      | Return result => Resolved result
      | Throw e => Rejected (ThrownTypeError e)
      end
  | Rejected e => Rejected (ThrownError e)
  end.

End Parsing.

End DotnetNunitParser.

(** ** Values of the declared types among the values at run time *)

Module ToRaw.

Definition case (tc : TestCase) : Raw.TestCase :=
  let a := tc_attrs tc in
  {| Raw.tc_attrs :=
       Some {| Raw.tc_classname := Some (tc_classname a);
               Raw.tc_name := Some (tc_name a);
               Raw.tc_duration := Some (tc_duration a);
               Raw.tc_result := Some (tc_result a) |};
     Raw.failure := failure tc |}.

Fixpoint suite (ts : TestSuite) : Raw.TestSuite :=
  let 'mkTestSuite a cases nested := ts in
  Raw.mkTestSuite
    (Some {| Raw.ts_name := Some (ts_name a);
             Raw.ts_duration := Some (ts_duration a) |})
    (fmap (M:=list) case <$> cases)
    (match nested with
     | Some l => Some (suite <$> l)
     | None => None
     end).

Definition report (nunit : NunitReport) : Raw.NunitReport :=
  let run := test_run nunit in
  Some {| Raw.test_run :=
            Some {| Raw.tr_attrs := tr_attrs run;
                    Raw.tr_test_suite := fmap (M:=list) suite <$> tr_test_suite run |} |}.

(** A group under construction. *)
Definition pending (g : DotnetNunitParser.Group)
    : DotnetNunitParser.RunTime.Group :=
  {| DotnetNunitParser.RunTime.describe := Some (DotnetNunitParser.describe g);
     DotnetNunitParser.RunTime.tests := case <$> DotnetNunitParser.tests g |}.

Definition group (g : TestGroupResult) : Raw.TestGroupResult :=
  {| Raw.tgr_name := Some (tgr_name g); Raw.tgr_tests := tgr_tests g |}.

Definition suiteResult (sr : TestSuiteResult) : Raw.TestSuiteResult :=
  {| Raw.tsr_name := tsr_name sr;
     Raw.tsr_groups := group <$> tsr_groups sr;
     Raw.tsr_time := tsr_time sr;
     Raw.tsr_depth := tsr_depth sr |}.

Definition result (r : TestRunResult) : Raw.TestRunResult :=
  {| Raw.trr_path := trr_path r;
     Raw.trr_suites := suiteResult <$> trr_suites r;
     Raw.trr_time := trr_time r |}.

End ToRaw.

(** ** Notions of the specification *)

Module Spec.

Import Regex.

(** What a pattern matches, read off the pattern: [matches re s caps]
    holds when [s], as a whole, is matched by [re] with the capture groups
    holding [caps]. *)
Inductive matches : regex → jsstring → list jsstring → Prop :=
  | matches_end : matches [] [] []
  | matches_one cls re c s caps :
      class_matches cls c = true →
      matches re s caps →
      matches (One cls :: re) (c :: s) caps
  | matches_capture cls min re cap s caps :
      Forall (λ c, class_matches cls c = true) cap →
      (min ≤ length cap)%nat →
      matches re s caps →
      matches (Capture cls min :: re) (cap ++ s) (cap :: caps).

(** "Looks like a class name": the first character is an upper-case Latin
    letter. *)
Definition starts_uppercase (part : jsstring) : bool :=
  match part with
  | c :: _ => (65 <=? c) && (c <=? 90)
  | [] => false
  end.

(** The elements of a list strictly before the first one that satisfies
    [p]. *)
Fixpoint before_first {A} (p : A → bool) (l : list A) : list A :=
  match l with
  | [] => []
  | x :: l' => if p x then [] else x :: before_first p l'
  end.

(** The package prefix as the specification words it: the segments
    strictly before the first one that looks like a class name. *)
Definition package_prefix (tracePath : jsstring) : list jsstring :=
  before_first starts_uppercase (split 46 tracePath).

(** The directory components of a tracked path. *)
Definition dir_components (filePath : jsstring) : list jsstring :=
  split Path.slash (Path.dirname filePath).

(** "The last N parent-directory components equal the package-prefix
    segments, component for component", N being the length of the prefix. *)
Definition mirrors (prefix : list jsstring) (filePath : jsstring) : Prop :=
  let dirs := dir_components filePath in
  (length prefix ≤ length dirs)%nat
  ∧ drop (length dirs - length prefix) dirs = prefix.

#[global] Instance mirrors_dec prefix filePath :
  Decision (mirrors prefix filePath).
Proof. unfold mirrors. apply _. Defined.

(** The tracked paths filed under [fileName], in tracked order: the
    normalized forms of the tracked files whose base name is [fileName]. *)
Definition candidates (normalizeFilePath : jsstring → jsstring)
    (tracked : list jsstring) (fileName : jsstring) : list jsstring :=
  normalizeFilePath <$> filter (λ raw, Path.basename raw = fileName) tracked.

(** A string without white space at either end. *)
Definition trimmed (s : jsstring) : Prop :=
  (∀ c, head s = Some c → is_white_space c = false)
  ∧ (∀ c, last s = Some c → is_white_space c = false).

(** The distinct elements of a list, in the order of their first
    occurrence. *)
Fixpoint distinct (l : list jsstring) : list jsstring :=
  match l with
  | [] => []
  | x :: l' => x :: filter (λ y, y ≠ x) (distinct l')
  end.

(** The cases of classname [k], in their original order. *)
Definition group_of (cases : list TestCase) (k : jsstring)
    : DotnetNunitParser.Group :=
  DotnetNunitParser.mkGroup k
    (filter (λ tc, tc_classname (tc_attrs tc) = k) cases).

(** The groups of a list of cases: one per distinct classname, in
    first-seen order. *)
Definition grouped (cases : list TestCase) : list DotnetNunitParser.Group :=
  group_of cases <$> distinct (tc_classname ∘ tc_attrs <$> cases).

(** The pre-order listing of a forest of suites: each suite, then the
    listing of its nested suites one level deeper when the suite has no
    group, then the suites that follow it. *)
Fixpoint preorder_suite (depth : nat) (ts : TestSuite) {struct ts}
    : list TestSuiteResult :=
  let sr := DotnetNunitParser.suiteResult ts depth in
  sr ::
  match tsr_groups sr with
  | [] =>
      match ts_test_suite ts with
      | Some nested =>
          (fix each (l : list TestSuite) :=
             match l with
             | [] => []
             | ts' :: l' => preorder_suite (S depth) ts' ++ each l'
             end) nested
      | None => []
      end
  | _ :: _ => []
  end.

Definition preorder (depth : nat) (suites : option (list TestSuite))
    : list TestSuiteResult :=
  match suites with
  | Some suites => concat (preorder_suite depth <$> suites)
  | None => []
  end.




End Spec.

(** ** Concrete inputs used in the examples below *)

Module Examples.

Import Options.

(** Modelled from the spec: [normalizeFilePath] of [utils/path-utils], which
    is not among the sources; the specification describes the tracked
    paths as normalized to forward slashes. *)
Definition normalizeFilePath (p : jsstring) : jsstring :=
  (λ c, if c =? 92 then 47 else c) <$> p.

(** A failed test whose trace points into a tracked file. *)
Definition bar_options : ParseOptions :=
  mkParseOptions true [js "src/com/foo/Bar.java"].

(** The instance that the constructor builds from these options. *)
Definition bar_parser : DotnetNunitParser.t :=
  DotnetNunitParser.mkParser bar_options
    {[ js "Bar.java" := [js "src/com/foo/Bar.java"] ]}.

Definition bar_case : TestCase :=
  mkTestCase
    (mkTestCaseAttrs (js "com.foo.BarTest") None (js "baz") (js "0.5")
       (js "Failed"))
    (Some (mkFailure (js "at com.foo.Bar.baz(Bar.java:42)") (js "boom"))).

Definition bar_suite : TestSuite :=
  mkTestSuite
    (mkTestSuiteAttrs (js "BarTests") (js "1") (js "0") (js "1") (js "0")
       (js "0") (js "1.5"))
    (Some [bar_case]) None.

Definition bar_report : NunitReport :=
  mkNunitReport
    (mkTestRun (Some (mkTestRunAttrs (Some (js "2")))) (Some [bar_suite])).

(** A package segment that starts with a dollar sign. *)
Definition gen_options : ParseOptions :=
  mkParseOptions true [js "src/com/$gen/Bar.java"].

(** A trace path without a package, for a tracked file. *)
Definition flat_options : ParseOptions :=
  mkParseOptions true [js "src/Bar.java"].

(** A suite with a case and a nested suite, and a suite that only holds
    that one. *)
Definition inner_suite : TestSuite :=
  mkTestSuite
    (mkTestSuiteAttrs (js "Inner") (js "0") (js "0") (js "0") (js "0")
       (js "0") (js "0.25"))
    None None.

Definition mixed_suite : TestSuite :=
  mkTestSuite
    (mkTestSuiteAttrs (js " Mixed ") (js "1") (js "0") (js "1") (js "0")
       (js "0") (js "1.5"))
    (Some [bar_case]) (Some [inner_suite]).

Definition container_suite : TestSuite :=
  mkTestSuite
    (mkTestSuiteAttrs (js "Outer") (js "1") (js "0") (js "1") (js "0")
       (js "0") (js "2"))
    None (Some [mixed_suite]).

(** A tracked file whose base name is a name that objects inherit. *)
Definition constructor_options : ParseOptions :=
  mkParseOptions true [js "lib/constructor"].

(** An instance whose index owns nothing. *)
Definition empty_parser : DotnetNunitParser.t :=
  DotnetNunitParser.mkParser (mkParseOptions true []) ∅.

(** A suite without name, and a suite whose only case has neither
    classname nor duration. *)
Definition nameless_suite : Raw.TestSuite :=
  Raw.mkTestSuite (Some (Raw.mkTestSuiteAttrs None (Some (js "1")))) None None.

Definition sparse_suite : Raw.TestSuite :=
  Raw.mkTestSuite (Some (Raw.mkTestSuiteAttrs (Some (js "Sparse")) None))
    (Some [Raw.mkTestCase
             (Some (Raw.mkTestCaseAttrs None (Some (js "ok")) None None))
             None])
    None.

(** Texts that deserialize to values outside the declared types. *)
Definition foreign_document : jsstring := js "<html/>".

Definition nameless_document : jsstring :=
  js "<test-run><test-suite duration='1'/></test-run>".

Definition sparse_document : jsstring :=
  js "<test-run><test-suite name='Sparse'>...</test-suite></test-run>".

(** A stand-in for xml2js: it knows a few documents and rejects the rest.
    The empty text resolves to [null], as with xml2js. *)
Definition one_document (content : jsstring)
    : Promise jsstring Raw.NunitReport :=
  if bool_decide (content = js "<test-run time='2'>...</test-run>")
  then Resolved (ToRaw.report bar_report)
  else if bool_decide (content = [])
  then Resolved None
  else if bool_decide (content = foreign_document)
  then Resolved (Some (Raw.mkRoot None))
  else if bool_decide (content = nameless_document)
  then Resolved
         (Some (Raw.mkRoot (Some (Raw.mkTestRun None (Some [nameless_suite])))))
  else if bool_decide (content = sparse_document)
  then Resolved
         (Some (Raw.mkRoot (Some (Raw.mkTestRun None (Some [sparse_suite])))))
  else Rejected (js "Error: Unclosed root tag").

End Examples.

(** * Properties *)

Import Options DotnetNunitParser.

(** ** Strings *)

Section StringFacts.

Lemma trimStart_spec s :
  ∃ pre, s = pre ++ trimStart s
         ∧ Forall (λ c, is_white_space c = true) pre
         ∧ ∀ c, head (trimStart s) = Some c → is_white_space c = false.
Proof.
  induction s as [|c s (pre & Hs & Hpre & Hhead)]; simpl.
  - by exists [].
  - destruct (is_white_space c) eqn:Hc.
    + exists (c :: pre). split; [by rewrite Hs at 1|].
      split; [by constructor|done].
    + exists []. split; [done|]. split; [done|]. by intros c' [= <-].
Qed.

(** [trim] removes white space, and nothing else, at both ends. *)
Lemma trim_spec s :
  ∃ pre post,
    s = pre ++ trim s ++ post
    ∧ Forall (λ c, is_white_space c = true) pre
    ∧ Forall (λ c, is_white_space c = true) post
    ∧ (∀ c, head (trim s) = Some c → is_white_space c = false)
    ∧ (∀ c, last (trim s) = Some c → is_white_space c = false).
Proof.
  unfold trim, trimEnd.
  destruct (trimStart_spec s) as (pre & Hs & Hpre & Hhead).
  destruct (trimStart_spec (reverse (trimStart s))) as (post & Hr & Hpost & Hlast).
  set (t := trimStart (reverse (trimStart s))) in *.
  assert (trimStart s = reverse t ++ reverse post) as Hmid.
  { clearbody t. apply (f_equal reverse) in Hr.
    rewrite reverse_involutive, reverse_app in Hr. exact Hr. }
  exists pre, (reverse post). split; [by rewrite <- Hmid|].
  split; [done|]. split; [by apply Forall_reverse|]. split.
  - intros c Hc. apply Hhead. rewrite Hmid.
    destruct (reverse t); [done|]. exact Hc.
  - intros c Hc. apply Hlast. by rewrite <- last_reverse.
Qed.

End StringFacts.

(** ** The regular-expression matcher *)

Section RegexFacts.

Import Regex Spec.

Lemma run_length_take cls s n :
  (n ≤ run_length cls s)%nat →
  Forall (λ c, class_matches cls c = true) (take n s) ∧ length (take n s) = n.
Proof.
  revert n. induction s as [|c s IH]; intros n Hn; simpl in *.
  - assert (n = 0%nat) as -> by lia. by split.
  - destruct n as [|n]; [by split|].
    destruct (class_matches cls c) eqn:Hc; [|lia].
    destruct (IH n) as [Hall Hlen]; [lia|].
    split; [by constructor | simpl; by rewrite Hlen].
Qed.

Lemma run_length_ge cls cap s :
  Forall (λ c, class_matches cls c = true) cap →
  (length cap ≤ run_length cls (cap ++ s))%nat.
Proof.
  induction 1 as [|c cap Hc _ IH]; simpl; [lia|]. rewrite Hc. lia.
Qed.

Lemma try_lengths_Some k min more s caps :
  try_lengths k min more s = Some caps →
  ∃ n caps', (min ≤ n < min + more)%nat
             ∧ k (drop n s) = Some caps' ∧ caps = take n s :: caps'.
Proof.
  induction more as [|more IH]; simpl; [done|].
  destruct (k (drop (min + more) s)) as [caps'|] eqn:Hk.
  - intros [= <-]. exists (min + more)%nat, caps'. split; [lia|done].
  - intros (n & caps' & ? & ? & ?)%IH. exists n, caps'. split; [lia|done].
Qed.

Lemma try_lengths_is_Some k min more s n :
  (min ≤ n < min + more)%nat →
  is_Some (k (drop n s)) →
  is_Some (try_lengths k min more s).
Proof.
  induction more as [|more IH]; simpl; [lia|]. intros Hn Hk.
  destruct (k (drop (min + more) s)) eqn:Hk'; [done|].
  apply IH; [|done].
  destruct (decide (n = (min + more)%nat)) as [->|]; [|lia].
  rewrite Hk' in Hk. by destruct Hk.
Qed.

(** The matcher only answers with genuine matches. *)
Lemma exec_sound re s caps : exec re s = Some caps → matches re s caps.
Proof.
  revert s caps. induction re as [|[cls|cls min] re IH]; intros s caps; simpl.
  - destruct s; [|done]. intros [= <-]. constructor.
  - destruct s as [|c s]; [done|].
    destruct (class_matches cls c) eqn:Hc; [|done].
    intros H. constructor; auto.
  - intros (n & caps' & Hn & Hk & ->)%try_lengths_Some.
    destruct (run_length_take cls s n) as [Hall Hlen]; [lia|].
    rewrite <- (take_drop n s) at 1.
    constructor; [done|lia|auto].
Qed.

(** The matcher finds a match whenever there is one. *)
Lemma exec_complete re s caps : matches re s caps → is_Some (exec re s).
Proof.
  induction 1 as [|cls re c s caps Hc _ IH|cls min re cap s caps Hall Hmin _ IH];
    simpl.
  - done.
  - by rewrite Hc.
  - apply (try_lengths_is_Some _ _ _ _ (length cap)).
    + pose proof (run_length_ge cls cap s Hall). lia.
    + by rewrite drop_app_length.
Qed.

(** The shape of a line the parser's pattern matches. *)
Lemma matches_re_inv line caps :
  matches re line caps →
  ∃ tracePath fileName lineStr,
    caps = [tracePath; fileName; lineStr]
    ∧ line = js "at " ++ tracePath ++ js "(" ++ fileName ++ js ":"
               ++ lineStr ++ js ")"
    ∧ Forall (λ c, is_line_terminator c = false) tracePath
    ∧ Forall (λ c, is_line_terminator c = false) fileName
    ∧ Forall (λ c, is_digit c = true) lineStr
    ∧ lineStr ≠ [].
Proof.
  unfold re. intros H.
  repeat match goal with
  | H : matches (_ :: _) _ _ |- _ => inversion H; clear H; simplify_eq/=
  | H : matches [] _ _ |- _ => inversion H; clear H; simplify_eq/=
  | H : (_ =? _) = true |- _ => apply N.eqb_eq in H; subst
  end.
  eexists _, _, _. split; [done|]. split; [done|].
  repeat split.
  - eapply Forall_impl; [eassumption|]. simpl. intros c.
    by destruct (is_line_terminator c).
  - eapply Forall_impl; [eassumption|]. simpl. intros c.
    by destruct (is_line_terminator c).
  - done.
  - intros ->. simpl in *. lia.
Qed.

End RegexFacts.

(** ** Tracked files and path resolution *)

Section ResolutionFacts.

Import Spec.

Variable normalizeFilePath : jsstring → jsstring.

(** What [object[key]] reads, case by case. *)
Lemma get_Own {V} (own : gmap jsstring V) key v :
  JsObject.get own key = JsObject.Own v ↔ own !! key = Some v.
Proof.
  unfold JsObject.get. destruct (own !! key) as [w|].
  - split; by intros [= ->].
  - by destruct (bool_decide _).
Qed.

Lemma get_Undefined {V} (own : gmap jsstring V) key :
  JsObject.get own key = JsObject.Undefined ↔
  own !! key = None ∧ key ∉ JsObject.inherited_names.
Proof.
  unfold JsObject.get. destruct (own !! key) as [w|].
  - split; [done|by intros [? _]].
  - destruct (bool_decide_reflect (key ∈ JsObject.inherited_names)).
    + split; [done|]. by intros [_ ?].
    + done.
Qed.

Lemma get_Inherited {V} (own : gmap jsstring V) key :
  JsObject.get own key = JsObject.Inherited ↔
  own !! key = None ∧ key ∈ JsObject.inherited_names.
Proof.
  unfold JsObject.get. destruct (own !! key) as [w|].
  - split; [done|by intros [? _]].
  - destruct (bool_decide_reflect (key ∈ JsObject.inherited_names)).
    + done.
    + split; [done|]. by intros [_ ?].
Qed.

(** The index after the constructor's loop, when the loop ends. *)
Lemma foldlM_track_lookup tracked index index' fileName :
  foldlM (track normalizeFilePath) index tracked = Return index' →
  index' !! fileName =
    match index !! fileName, candidates normalizeFilePath tracked fileName with
    | None, [] => None
    | files, more => Some (default [] files ++ more)
    end.
Proof.
  revert index. induction tracked as [|raw tracked IH]; intros index; simpl.
  - intros [= <-]. unfold candidates. simpl.
    destruct (index !! fileName); simpl; [|done]. by rewrite app_nil_r.
  - destruct (track normalizeFilePath index raw) as [index1|e] eqn:Hstep;
      simpl; [|done].
    intros Hrest. rewrite (IH _ Hrest). clear IH Hrest.
    unfold candidates. rewrite filter_cons. unfold track in Hstep.
    destruct (JsObject.get index (Path.basename raw)) as [files| |] eqn:Hget;
      [| done |]; injection Hstep as <-.
    + apply get_Own in Hget.
      destruct (decide (Path.basename raw = fileName)) as [<-|Hne].
      * rewrite lookup_insert_eq, Hget. simpl. by rewrite <- app_assoc.
      * by rewrite lookup_insert_ne.
    + apply get_Undefined in Hget as [Hget _].
      destruct (decide (Path.basename raw = fileName)) as [<-|Hne].
      * by rewrite lookup_insert_eq, Hget.
      * by rewrite lookup_insert_ne.
Qed.

(** The loop ends exactly when no tracked file has a base name that the
    object inherits. *)
Lemma foldlM_track_Return tracked index :
  (∀ key, key ∈ JsObject.inherited_names → index !! key = None) →
  (∃ index', foldlM (track normalizeFilePath) index tracked = Return index')
  ↔ Forall (λ raw, Path.basename raw ∉ JsObject.inherited_names) tracked.
Proof.
  revert index. induction tracked as [|raw tracked IH]; intros index Hinv; simpl.
  - split; [done|]. by eexists.
  - rewrite Forall_cons.
    destruct (track normalizeFilePath index raw) as [index1|e] eqn:Hstep;
      simpl; unfold track in Hstep;
      destruct (JsObject.get index (Path.basename raw)) as [files| |] eqn:Hget;
      try done; try injection Hstep as <-.
    + apply get_Own in Hget.
      assert (Path.basename raw ∉ JsObject.inherited_names) as Hown.
      { intros Hin. rewrite (Hinv _ Hin) in Hget. done. }
      rewrite IH; [tauto|]. intros key Hkey.
      rewrite lookup_insert_ne; [by apply Hinv|]. by intros <-.
    + apply get_Undefined in Hget as [_ Hown].
      rewrite IH; [tauto|]. intros key Hkey.
      rewrite lookup_insert_ne; [by apply Hinv|]. by intros <-.
    + apply get_Inherited in Hget as [_ Hin]. split; [by intros [? ?]|].
      by intros [? _].
Qed.

(** The constructor returns exactly when no tracked file has a base name
    that the object inherits; it throws otherwise. *)
Lemma new_Return options :
  (∃ self, new normalizeFilePath options = Return self)
  ↔ Forall (λ raw, Path.basename raw ∉ JsObject.inherited_names)
      (Options.trackedFiles options).
Proof.
  rewrite <- (foldlM_track_Return _ ∅) by (by intros; apply lookup_empty).
  unfold new.
  destruct (foldlM _ _ _) as [index|e]; simpl.
  - split; intros _; by eexists.
  - split; by intros [? ?].
Qed.

(** What the constructor leaves in the instance. *)
Lemma new_trackedFiles options self fileName :
  new normalizeFilePath options = Return self →
  DotnetNunitParser.options self = options
  ∧ trackedFiles self !! fileName =
      match candidates normalizeFilePath (Options.trackedFiles options) fileName with
      | [] => None
      | files => Some files
      end.
Proof.
  unfold new.
  destruct (foldlM _ _ _) as [index|e] eqn:Hloop; simpl; [|done].
  intros [= <-]. split; [done|]. simpl.
  rewrite (foldlM_track_lookup _ _ _ fileName Hloop), lookup_empty.
  by destruct (candidates _ _ _).
Qed.

(** The index that the constructor leaves owns no inherited name. *)
Lemma new_owns_no_inherited options self fileName :
  new normalizeFilePath options = Return self →
  fileName ∈ JsObject.inherited_names →
  trackedFiles self !! fileName = None.
Proof.
  intros Hnew Hin.
  destruct (new_trackedFiles _ _ fileName Hnew) as [_ ->].
  assert (Forall (λ raw, Path.basename raw ∉ JsObject.inherited_names)
            (Options.trackedFiles options)) as Hall
    by (apply new_Return; by eexists).
  unfold candidates.
  destruct (filter _ _) as [|raw l] eqn:Hf; [done|]. exfalso.
  assert (raw ∈ filter (λ raw, Path.basename raw = fileName)
                   (Options.trackedFiles options)) as Hraw
    by (rewrite Hf; apply list_elem_of_here).
  apply list_elem_of_filter in Hraw as [<- Hraw].
  rewrite Forall_forall in Hall. by apply (Hall raw).
Qed.

Lemma every_same_from_spec i l other :
  every_same_from i l other = true ↔ take (length l) (drop i other) = l.
Proof.
  revert i. induction l as [|x l IH]; intros i; simpl.
  - by rewrite take_0.
  - rewrite andb_true_iff, bool_decide_eq_true, IH.
    destruct (other !! i) as [y|] eqn:Hi.
    + rewrite (drop_S _ _ _ Hi). simpl. split.
      * intros [[= ->] Heq]. by f_equal.
      * intros [= -> Heq]. done.
    + rewrite (drop_ge other i) by (by apply lookup_ge_None). simpl.
      split; [by intros [? _]|done].
Qed.

(** The test the loop of [getFilePath] applies to a tracked path is the
    specification's "the last N directories mirror the prefix". *)
Lemma getFilePath_loop_spec prefix files :
  getFilePath_loop prefix files = head (filter (mirrors prefix) files).
Proof.
  induction files as [|filePath files IH]; simpl; [done|].
  rewrite filter_cons.
  assert (mirrors prefix filePath ↔
          (length prefix ≤ length (dir_components filePath))%nat
          ∧ drop (length (dir_components filePath) - length prefix)
              (dir_components filePath) = prefix) as Hm by done.
  unfold dir_components in Hm.
  set (dirs := split Path.slash (Path.dirname filePath)) in *.
  destruct (length dirs <? length prefix)%nat eqn:Hshort.
  - apply Nat.ltb_lt in Hshort. rewrite decide_False; [done|].
    rewrite Hm. lia.
  - apply Nat.ltb_ge in Hshort.
    assert (every_same_from 0 prefix
              (if (length prefix <? length dirs)%nat
               then drop (length dirs - length prefix) dirs else dirs)
            = true ↔ drop (length dirs - length prefix) dirs = prefix) as Hiff.
    { rewrite every_same_from_spec, drop_0.
      destruct (length prefix <? length dirs)%nat eqn:Hlt.
      - rewrite take_ge; [done|]. rewrite length_drop. lia.
      - apply Nat.ltb_ge in Hlt.
        replace (length dirs - length prefix)%nat with 0%nat by lia.
        rewrite drop_0, take_ge by lia. done. }
    destruct (every_same_from _ _ _) eqn:Hevery.
    + rewrite decide_True; [done|]. apply Hm. split; [done|]. by apply Hiff.
    + rewrite decide_False; [done|]. rewrite Hm. intros [_ Heq].
      apply Hiff in Heq. congruence.
Qed.

Lemma getFilePath_spec options self tracePath fileName :
  new normalizeFilePath options = Return self →
  getFilePath self tracePath fileName =
    match packageParts tracePath with
    | [] => Return None
    | prefix =>
        if bool_decide (fileName ∈ JsObject.inherited_names)
        then Throw mkTypeError
        else
          Return
            (head (filter (mirrors prefix)
                     (candidates normalizeFilePath
                        (Options.trackedFiles options) fileName)))
    end.
Proof.
  intros Hnew. unfold getFilePath.
  destruct (new_trackedFiles _ _ fileName Hnew) as [_ Hlook].
  destruct (JsObject.get (trackedFiles self) fileName) as [files| |] eqn:Hget.
  - apply get_Own in Hget.
    destruct (packageParts tracePath) as [|p ps] eqn:Hp; [done|].
    cbn [length Nat.eqb].
    rewrite bool_decide_eq_false_2.
    2:{ intros Hin. by rewrite (new_owns_no_inherited _ _ _ Hnew Hin) in Hget. }
    rewrite getFilePath_loop_spec. rewrite Hget in Hlook.
    destruct (candidates _ _ _); [done|]. by injection Hlook as ->.
  - apply get_Inherited in Hget as [_ Hin].
    destruct (packageParts tracePath) as [|p ps] eqn:Hp; [done|].
    cbn [length Nat.eqb]. by rewrite bool_decide_eq_true_2.
  - apply get_Undefined in Hget as [Hget Hown]. rewrite Hget in Hlook.
    destruct (packageParts tracePath) as [|p ps] eqn:Hp; [done|].
    rewrite bool_decide_eq_false_2 by done.
    by destruct (candidates _ _ _).
Qed.

End ResolutionFacts.

(** ** Grouping *)

Section GroupingFacts.

Import Spec.

Lemma elem_of_distinct x l : x ∈ distinct l ↔ x ∈ l.
Proof.
  induction l as [|y l IH]; simpl; [done|].
  rewrite !elem_of_cons, list_elem_of_filter, IH.
  destruct (decide (x = y)); tauto.
Qed.

Lemma NoDup_distinct l : NoDup (distinct l).
Proof.
  induction l as [|y l IH]; simpl; [constructor|].
  constructor; [|by apply NoDup_filter].
  rewrite list_elem_of_filter. tauto.
Qed.

Lemma distinct_snoc l x :
  distinct (l ++ [x]) = if decide (x ∈ l) then distinct l else distinct l ++ [x].
Proof.
  induction l as [|y l IH]; simpl; [done|]. rewrite IH.
  destruct (decide (x ∈ y :: l)) as [Hin'|Hnin'];
    destruct (decide (x ∈ l)) as [Hin|Hnin]; try done.
  - apply elem_of_cons in Hin' as [->|?]; [|done].
    rewrite filter_app, filter_cons_False, app_nil_r by tauto. done.
  - destruct Hnin'. by apply list_elem_of_further.
  - rewrite filter_app, filter_cons_True; [done|].
    intros ->. apply Hnin', list_elem_of_here.
Qed.

Lemma findIndex_None {A} (p : A → bool) l :
  findIndex p l = None ↔ Forall (λ x, p x = false) l.
Proof.
  induction l as [|x l IH]; simpl; [split; [intros _; constructor|done]|].
  rewrite Forall_cons. destruct (p x).
  - split; [done|]. by intros [? _].
  - rewrite fmap_None, IH. tauto.
Qed.

Lemma findIndex_before_first {A} (p : A → bool) l :
  match findIndex p l with Some i => take i l | None => l end
  = before_first p l.
Proof.
  induction l as [|x l IH]; simpl; [done|].
  destruct (p x); [done|]. destruct (findIndex p l); simpl in *; by f_equal.
Qed.

Lemma alter_first_group k f groups i :
  NoDup (describe <$> groups) →
  findIndex (λ g, bool_decide (describe g = k)) groups = Some i →
  alter f i groups =
    (λ g, if decide (describe g = k) then f g else g) <$> groups.
Proof.
  revert i. induction groups as [|g groups IH]; intros i; simpl; [done|].
  rewrite NoDup_cons. intros [Hg Hnd]. case_bool_decide as Hk.
  - intros [= <-]. simpl. rewrite decide_True by done. f_equal.
    rewrite <- (list_fmap_id groups) at 1. apply list_fmap_ext.
    intros j g' Hj. simpl. rewrite decide_False; [done|].
    intros Hk'. apply Hg. rewrite Hk, <- Hk'.
    apply list_elem_of_fmap. exists g'. split; [done|].
    by apply list_elem_of_lookup_2 in Hj.
  - destruct (findIndex _ groups) as [i'|] eqn:Hfind; [|done].
    intros [= <-]. simpl. rewrite decide_False by done. f_equal. by apply IH.
Qed.

Lemma filter_classname_absent k (l : list TestCase) :
  k ∉ (tc_classname ∘ tc_attrs <$> l) →
  filter (λ tc, tc_classname (tc_attrs tc) = k) l = [].
Proof.
  induction l as [|tc l IH]; simpl; [done|]. rewrite not_elem_of_cons.
  intros [Hne Hl]. rewrite filter_cons_False by (intros ?; by apply Hne).
  by apply IH.
Qed.

Lemma addToGroup_grouped l tc :
  addToGroup (grouped l) tc = grouped (l ++ [tc]).
Proof.
  unfold addToGroup, grouped.
  set (k := tc_classname (tc_attrs tc)).
  set (keys := distinct (tc_classname ∘ tc_attrs <$> l)).
  rewrite fmap_app. simpl. fold k. rewrite distinct_snoc. fold keys.
  assert (NoDup keys) as Hnd by apply NoDup_distinct.
  assert (describe <$> (group_of l <$> keys) = keys) as Hkeys.
  { rewrite <- list_fmap_compose. apply list_fmap_id. }
  destruct (findIndex _ _) as [i|] eqn:Hfind.
  - (* the classname was seen before: its group receives the case *)
    rewrite (alter_first_group k) by (by rewrite ?Hkeys).
    assert (k ∈ keys) as Hin.
    { destruct (decide (k ∈ keys)) as [|Hnin]; [done|]. exfalso.
      assert (findIndex (λ g, bool_decide (describe g = k))
                (group_of l <$> keys) = None) as Hnone; [|congruence].
      apply findIndex_None, Forall_fmap, Forall_forall. intros k' Hk'. simpl.
      apply bool_decide_eq_false. intros ->. done. }
    rewrite decide_True by (by apply elem_of_distinct).
    rewrite <- list_fmap_compose. apply list_fmap_ext. intros j k' _. simpl.
    unfold group_of, push. simpl. rewrite filter_app, filter_cons.
    destruct (decide (k' = k)) as [->|Hne].
    + rewrite decide_True by done. done.
    + rewrite decide_False by (fold k; congruence). by rewrite app_nil_r.
  - (* a new classname: a new group is appended *)
    apply findIndex_None, Forall_fmap in Hfind.
    rewrite Forall_forall in Hfind.
    assert (k ∉ keys) as Hnin.
    { intros Hin. specialize (Hfind k Hin). simpl in Hfind.
      by apply bool_decide_eq_false in Hfind. }
    rewrite decide_False by (by rewrite <- elem_of_distinct).
    rewrite <- (Nat.add_0_r (length _)), alter_app_r, fmap_app. simpl.
    f_equal.
    + apply list_fmap_ext. intros j k' Hj. unfold group_of.
      rewrite filter_app, filter_cons_False, app_nil_r; [done|].
      fold k. intros ->. apply Hnin. by apply list_elem_of_lookup_2 in Hj.
    + unfold group_of, push. simpl.
      rewrite filter_app, filter_cons_True by done.
      rewrite filter_classname_absent; [done|]. by rewrite <- elem_of_distinct.
Qed.

Lemma foldl_addToGroup cases : foldl addToGroup [] cases = grouped cases.
Proof.
  induction cases as [|tc cases IH] using rev_ind; [done|].
  by rewrite foldl_app, IH, <- addToGroup_grouped.
Qed.

(** The groups that [getGroups] returns. *)
Lemma getGroups_spec suite :
  getGroups suite =
    match ts_test_case suite with
    | None => []
    | Some cases =>
        (λ k, mkTestGroupResult k
                (caseResult <$>
                   filter (λ tc, tc_classname (tc_attrs tc) = k) cases))
          <$> distinct (tc_classname ∘ tc_attrs <$> cases)
    end.
Proof.
  unfold getGroups. destruct (ts_test_case suite) as [cases|]; [|done].
  rewrite foldl_addToGroup. unfold grouped. by rewrite <- list_fmap_compose.
Qed.

End GroupingFacts.

Section DistinctFacts.

Import Spec.

(** First-seen order: what occurs in a prefix of the list comes first, in
    the order of the prefix. *)
Lemma filter_all {A} (P : A → Prop) `{∀ x, Decision (P x)} (l : list A) :
  (∀ x, P x) → filter P l = l.
Proof.
  intros HP. induction l as [|x l IH]; [done|].
  rewrite filter_cons, decide_True by done. by rewrite IH.
Qed.

Lemma distinct_app l1 l2 :
  distinct (l1 ++ l2) = distinct l1 ++ filter (λ y, y ∉ l1) (distinct l2).
Proof.
  induction l1 as [|x l1 IH]; simpl.
  - rewrite filter_all; [done|]. intros y. apply not_elem_of_nil.
  - rewrite IH, filter_app, list_filter_filter. do 2 f_equal.
    apply list_filter_iff. intros y. rewrite not_elem_of_cons. tauto.
Qed.

(** So the first occurrence decides the rank: when [x] first occurs
    before any occurrence of [y], it comes before [y] in [distinct]. *)
Lemma distinct_first_occurrence l1 x l2 y :
  x ∉ l1 → y ∉ l1 → y ≠ x → y ∈ l2 →
  ∃ k1 k2 k3, distinct (l1 ++ x :: l2) = k1 ++ x :: k2 ++ y :: k3.
Proof.
  intros Hx Hy Hne Hin. rewrite distinct_app. simpl.
  rewrite filter_cons, decide_True by done.
  assert (y ∈ filter (λ z, z ∉ l1) (filter (λ z, z ≠ x) (distinct l2))) as Hy'.
  { rewrite !list_elem_of_filter, elem_of_distinct. tauto. }
  apply list_elem_of_split in Hy' as (k2 & k3 & ->).
  by exists (distinct l1), k2, k3.
Qed.

Lemma distinct_example :
  distinct [js "B"; js "A"; js "B"; js "C"; js "A"] = [js "B"; js "A"; js "C"].
Proof. reflexivity. Qed.

End DistinctFacts.

(** ** Suite traversal *)

Section TraversalFacts.

Import Spec.

(** Induction on a suite, with the property available for all of its
    nested suites. *)
Lemma TestSuite_forest_ind (P : TestSuite → Prop) :
  (∀ attrs cases nested,
     from_option (Forall P) True nested → P (mkTestSuite attrs cases nested)) →
  ∀ ts, P ts.
Proof.
  intros step. fix go 1. intros [attrs cases nested]. apply step.
  destruct nested as [l|]; simpl; [|exact I].
  induction l as [|ts l IH]; constructor; [apply go | exact IH].
Qed.

Lemma visitSuite_unfold ts suiteResults depth :
  visitSuite ts suiteResults depth =
    let sr := suiteResult ts depth in
    if (length (tsr_groups sr) =? 0)%nat
    then getTestSuiteResultRecursive (ts_test_suite ts)
           (suiteResults ++ [sr]) (S depth)
    else suiteResults ++ [sr].
Proof.
  destruct ts as [attrs cases nested]. simpl.
  destruct (length _ =? 0)%nat; [|done].
  destruct nested as [l|]; simpl; [|done].
  generalize
    (suiteResults ++ [suiteResult (mkTestSuite attrs cases (Some l)) depth]).
  induction l as [|ts l IH]; intros acc; simpl; [done|]. apply IH.
Qed.

Lemma preorder_suite_unfold depth ts :
  preorder_suite depth ts =
    suiteResult ts depth ::
    match tsr_groups (suiteResult ts depth) with
    | [] => preorder (S depth) (ts_test_suite ts)
    | _ :: _ => []
    end.
Proof.
  destruct ts as [attrs cases nested]. simpl. f_equal.
  destruct (getGroups _); [|done].
  destruct nested as [l|]; simpl; [|done].
  induction l as [|ts l IH]; simpl; [done|]. by rewrite IH.
Qed.

Lemma visitSuite_preorder ts :
  ∀ suiteResults depth,
    visitSuite ts suiteResults depth = suiteResults ++ preorder_suite depth ts.
Proof.
  induction ts as [attrs cases nested IH] using TestSuite_forest_ind.
  intros acc depth. rewrite visitSuite_unfold, preorder_suite_unfold. simpl.
  destruct (getGroups _) as [|g gs]; simpl; [|done].
  destruct nested as [l|]; simpl in *; [|done].
  assert (∀ acc',
            foldl (λ acc ts, visitSuite ts acc (S depth)) acc' l
            = acc' ++ concat (preorder_suite (S depth) <$> l)) as Hl.
  { induction IH as [|ts l Hts _ IHl]; intros acc'; simpl.
    - by rewrite app_nil_r.
    - by rewrite Hts, IHl, app_assoc. }
  by rewrite Hl, <- app_assoc.
Qed.

(** The traversal appends the pre-order listing to the accumulator. *)
Lemma getTestSuiteResultRecursive_preorder testSuites suiteResults depth :
  getTestSuiteResultRecursive testSuites suiteResults depth =
    suiteResults ++ preorder depth testSuites.
Proof.
  destruct testSuites as [l|]; simpl; [|by rewrite app_nil_r].
  revert suiteResults. induction l as [|ts l IH]; intros acc; simpl.
  - by rewrite app_nil_r.
  - by rewrite visitSuite_preorder, IH, app_assoc.
Qed.

End TraversalFacts.

Section PreorderFacts.

Import Spec.

(** Every element of the pre-order listing is the result of a suite. *)
Lemma preorder_suite_results ts :
  ∀ depth, Forall (λ sr, ∃ ts' d, sr = suiteResult ts' d)
             (preorder_suite depth ts).
Proof.
  induction ts as [attrs cases nested IH] using TestSuite_forest_ind.
  intros depth. rewrite preorder_suite_unfold. constructor; [by eexists _, _|].
  destruct (tsr_groups _); [|done].
  destruct nested as [l|]; simpl in *; [|done].
  induction IH as [|ts l Hts _ IHl]; simpl; [done|].
  apply Forall_app. split; [apply Hts | apply IHl].
Qed.

Lemma preorder_results depth suites :
  Forall (λ sr, ∃ ts d, sr = suiteResult ts d) (preorder depth suites).
Proof.
  destruct suites as [l|]; simpl; [|done].
  induction l as [|ts l IH]; simpl; [done|].
  apply Forall_app. split; [apply preorder_suite_results | apply IH].
Qed.

End PreorderFacts.

(** ** Stack-trace frames *)

Lemma exec_re_shape line caps :
  Regex.exec re line = Some caps →
  ∃ tracePath fileName lineStr,
    caps = [tracePath; fileName; lineStr]
    ∧ line = js "at " ++ tracePath ++ js "(" ++ fileName ++ js ":"
               ++ lineStr ++ js ")"
    ∧ Forall (λ c, Regex.is_line_terminator c = false) tracePath
    ∧ Forall (λ c, Regex.is_line_terminator c = false) fileName
    ∧ Forall (λ c, Regex.is_digit c = true) lineStr
    ∧ lineStr ≠ [].
Proof. intros H. by apply matches_re_inv, exec_sound. Qed.

(** Every line of that shape is matched. *)
Lemma exec_re_is_Some tracePath fileName lineStr :
  Forall (λ c, Regex.is_line_terminator c = false) tracePath →
  Forall (λ c, Regex.is_line_terminator c = false) fileName →
  Forall (λ c, Regex.is_digit c = true) lineStr →
  lineStr ≠ [] →
  is_Some (Regex.exec re (js "at " ++ tracePath ++ js "(" ++ fileName
                            ++ js ":" ++ lineStr ++ js ")")).
Proof.
  intros Htp Hfn Hln Hne.
  apply (exec_complete _ _ [tracePath; fileName; lineStr]). unfold re.
  assert (∀ l, Forall (λ c, Regex.is_line_terminator c = false) l →
               Forall (λ c, Regex.class_matches Regex.Dot c = true) l) as Hdot.
  { intros l Hl. eapply Forall_impl; [exact Hl|]. simpl. by intros c ->. }
  repeat first
    [ apply Spec.matches_end
    | apply Spec.matches_one; [reflexivity|]
    | apply Spec.matches_capture; [by auto | simpl; try lia |] ].
  destruct lineStr; [done|simpl; lia].
Qed.

Lemma exceptionThrowSource_loop_skip self line lines :
  Regex.exec re line = None →
  exceptionThrowSource_loop self (line :: lines)
  = exceptionThrowSource_loop self lines.
Proof. intros H. cbn [exceptionThrowSource_loop]. by rewrite H. Qed.

(** C10. A line is a frame only when the whole of it matches the pattern:
    it is then exactly "at ", a trace path, "(", a file name, ":", one or
    more decimal digits and ")", with nothing before and nothing after.
    So a line that does not begin with the three characters "at " (one
    that begins with white space, for instance) is no frame, a line that
    does not end with the closing parenthesis is no frame, and a line that
    is no frame is passed over by the scan of the trace. *)
Theorem frame_only_when_whole_line_matches :
  (∀ line caps,
     Regex.exec re line = Some caps →
     ∃ tracePath fileName lineStr,
       caps = [tracePath; fileName; lineStr]
       ∧ line = js "at " ++ tracePath ++ js "(" ++ fileName ++ js ":"
                  ++ lineStr ++ js ")"
       ∧ lineStr ≠ []
       ∧ Forall (λ c, Regex.is_digit c = true) lineStr)
  ∧ (∀ line, take 3 line ≠ js "at " → Regex.exec re line = None)
  ∧ (∀ c line, is_white_space c = true → Regex.exec re (c :: line) = None)
  ∧ (∀ line c, c ≠ 41 → Regex.exec re (line ++ [c]) = None)
  ∧ (∀ self line lines,
       Regex.exec re line = None →
       exceptionThrowSource_loop self (line :: lines)
       = exceptionThrowSource_loop self lines).
Proof.
  assert (∀ line, take 3 line ≠ js "at " → Regex.exec re line = None) as Hat.
  { intros line Hne. destruct (Regex.exec re line) as [caps|] eqn:Hex; [|done].
    apply exec_re_shape in Hex as (tp & fn & ln & _ & -> & _). by destruct Hne. }
  split; [|split; [exact Hat|split; [|split]]].
  - intros line caps (tp & fn & ln & ? & ? & _ & _ & ? & ?)%exec_re_shape.
    by exists tp, fn, ln.
  - intros c line Hc. apply Hat. intros Heq.
    change (js "at ") with [97; 116; 32] in Heq. simpl in Heq.
    injection Heq as -> _. done.
  - intros line c Hc.
    destruct (Regex.exec re (line ++ [c])) as [caps|] eqn:Hex; [|done].
    apply exec_re_shape in Hex as (tp & fn & ln & _ & Heq & _).
    rewrite !app_assoc in Heq. apply app_inj_tail in Heq as [_ ->]. done.
  - apply exceptionThrowSource_loop_skip.
Qed.

Lemma frame_only_when_whole_line_matches_witness :
  (∃ tracePath fileName lineStr,
     Some [js "com.foo.Bar.baz"; js "Bar.java"; js "42"]
       = Some [tracePath; fileName; lineStr]
     ∧ js "at com.foo.Bar.baz(Bar.java:42)"
       = js "at " ++ tracePath ++ js "(" ++ fileName ++ js ":"
           ++ lineStr ++ js ")"
     ∧ lineStr ≠ []
     ∧ Forall (λ c, Regex.is_digit c = true) lineStr)
  ∧ Regex.exec re (js "  at com.foo.Bar.baz(Bar.java:42)") = None
  ∧ Regex.exec re (js "at com.foo.Bar.baz(Bar.java:42) ") = None.
Proof.
  destruct frame_only_when_whole_line_matches as (Hshape & _ & Hws & Htail & _).
  split; [|split].
  - destruct (Hshape (js "at com.foo.Bar.baz(Bar.java:42)")
                [js "com.foo.Bar.baz"; js "Bar.java"; js "42"])
      as (tp & fn & ln & [= <- <- <-] & ? & ? & ?); [reflexivity|].
    by exists (js "com.foo.Bar.baz"), (js "Bar.java"), (js "42").
  - apply (Hws 32). reflexivity.
  - apply (Htail (js "at com.foo.Bar.baz(Bar.java:42)") 32). done.
Defined.

(** ** Package prefix *)

Lemma packageParts_before_first tracePath :
  packageParts tracePath = Spec.before_first starts_upto_Z (split 46 tracePath).
Proof. apply findIndex_before_first. Qed.

(** On segments that start with a letter, the comparison with ['Z'] tells
    upper case from lower case, and the code computes the prefix of the
    specification. *)
Lemma packageParts_on_letters tracePath :
  Forall (λ part, starts_upto_Z part = Spec.starts_uppercase part)
    (split 46 tracePath) →
  packageParts tracePath = Spec.package_prefix tracePath.
Proof.
  rewrite packageParts_before_first. unfold Spec.package_prefix.
  induction 1 as [|part parts Hpart _ IH]; simpl; [done|].
  rewrite Hpart. destruct (Spec.starts_uppercase part); [done|]. by rewrite IH.
Qed.

(** An empty prefix, which is what a trace path that starts with a class
    name has, resolves to nothing. *)
Lemma getFilePath_without_prefix self tracePath fileName :
  packageParts tracePath = [] →
  getFilePath self tracePath fileName = Return None.
Proof.
  intros Hnil. unfold getFilePath. rewrite Hnil.
  by destruct (JsObject.get (trackedFiles self) fileName).
Qed.

(** A trace path whose very first segment counts as a class name has an
    empty prefix. *)
Lemma packageParts_class_first tracePath part parts :
  split 46 tracePath = part :: parts →
  starts_upto_Z part = true →
  packageParts tracePath = [].
Proof.
  intros Hsplit Hpart. rewrite packageParts_before_first, Hsplit. simpl.
  by rewrite Hpart.
Qed.

(** C3. The code cuts the trace path at the first segment whose first
    character is not above ['Z'], which is more than the upper-case
    letters: in "com.$gen.Bar.run" it stops at "$gen" where the
    specification's prefix is "com", "$gen", and the tracked file
    "src/com/$gen/Bar.java", which that prefix designates, is not found. *)
Theorem packageParts_stops_at_dollar_segment :
  packageParts (js "com.$gen.Bar.run") = [js "com"]
  ∧ Spec.package_prefix (js "com.$gen.Bar.run") = [js "com"; js "$gen"]
  ∧ (self ← new Examples.normalizeFilePath Examples.gen_options;
     getFilePath self (js "com.$gen.Bar.run") (js "Bar.java")) = Return None
  ∧ head (filter (Spec.mirrors (Spec.package_prefix (js "com.$gen.Bar.run")))
            (Spec.candidates Examples.normalizeFilePath
               (Options.trackedFiles Examples.gen_options) (js "Bar.java")))
    = Some (js "src/com/$gen/Bar.java").
Proof. repeat split; vm_compute; reflexivity. Qed.

(** ** Path resolution *)

(** The head of a filtered list is the first element that passes. *)
Lemma head_filter_Some {A} (P : A → Prop) `{∀ x, Decision (P x)} (l : list A) x :
  head (filter P l) = Some x →
  ∃ i, l !! i = Some x ∧ P x
       ∧ ∀ j y, (j < i)%nat → l !! j = Some y → ¬ P y.
Proof.
  induction l as [|p ps IH]; simpl; [done|].
  rewrite filter_cons. destruct (decide (P p)) as [Hp|Hp]; simpl.
  - intros [= ->]. exists 0%nat. split; [done|]. split; [done|].
    intros j y Hj. lia.
  - intros (i & Hi & Hx & Hbefore)%IH. exists (S i).
    split; [done|]. split; [done|]. intros [|j] y Hj; simpl.
    + by intros [= <-].
    + apply Hbefore. lia.
Qed.

(** C2, as the claim has it: resolution succeeds exactly when some tracked
    file of that base name has its last directories equal to the prefix.
    This fails for a trace path without package segments: the prefix is
    empty, every tracked "Bar.java" mirrors it, and yet nothing is
    resolved. *)
Lemma empty_prefix_resolves_nothing :
  ¬ ((∃ filePath,
        (self ← new Examples.normalizeFilePath Examples.flat_options;
         getFilePath self (js "Bar.baz") (js "Bar.java"))
        = Return (Some filePath))
     ↔ ∃ raw, raw ∈ Options.trackedFiles Examples.flat_options
              ∧ Path.basename raw = js "Bar.java"
              ∧ Spec.mirrors (packageParts (js "Bar.baz"))
                  (Examples.normalizeFilePath raw)).
Proof.
  intros [_ Hback]. destruct Hback as [p Hp].
  - exists (js "src/Bar.java"). split; [apply list_elem_of_here|].
    split; [reflexivity|]. split; vm_compute; [lia|reflexivity].
  - vm_compute in Hp. discriminate.
Qed.

Section Resolution.

Variable normalizeFilePath : jsstring → jsstring.

(** C2, amended. An instance exists only when no tracked file has a base
    name that objects inherit ("constructor", "toString", ...). For such
    an instance, when the package prefix is not empty and the file name is
    not an inherited name, resolution returns the first, in tracked
    order, of the tracked paths under the given base name whose last N
    directory components are the N segments of the prefix; it succeeds
    exactly when there is such a path, and fails when no tracked file has
    the base name or none qualifies. A path with fewer directory
    components than the prefix never qualifies. When the package prefix is
    empty, resolution fails. When the prefix is not empty and the file
    name is an inherited name, resolution throws. *)
Theorem getFilePath_first_mirroring_candidate options self tracePath fileName :
  new normalizeFilePath options = Return self →
  let prefix := packageParts tracePath in
  let tracked := Options.trackedFiles options in
  let files := Spec.candidates normalizeFilePath tracked fileName in
  let resolved := getFilePath self tracePath fileName in
  Forall (λ raw, Path.basename raw ∉ JsObject.inherited_names) tracked
  ∧ (prefix ≠ [] → fileName ∉ JsObject.inherited_names →
     resolved = Return (head (filter (Spec.mirrors prefix) files))
     ∧ ((∃ filePath, resolved = Return (Some filePath)) ↔
        ∃ raw, raw ∈ tracked ∧ Path.basename raw = fileName
               ∧ Spec.mirrors prefix (normalizeFilePath raw))
     ∧ (∀ filePath, resolved = Return (Some filePath) →
          ∃ i, files !! i = Some filePath ∧ Spec.mirrors prefix filePath
               ∧ ∀ j other, (j < i)%nat → files !! j = Some other →
                            ¬ Spec.mirrors prefix other)
     ∧ (files = [] → resolved = Return None)
     ∧ (Forall (λ filePath, ¬ Spec.mirrors prefix filePath) files →
        resolved = Return None))
  ∧ (∀ filePath,
       (length (Spec.dir_components filePath) < length prefix)%nat →
       ¬ Spec.mirrors prefix filePath)
  ∧ (prefix = [] → resolved = Return None)
  ∧ (prefix ≠ [] → fileName ∈ JsObject.inherited_names →
     resolved = Throw mkTypeError).
Proof.
  intros Hnew prefix tracked files resolved.
  split; [apply (proj1 (new_Return normalizeFilePath options)); by eexists|].
  split; [|split; [|split]].
  - intros Hne Hown.
    assert (resolved = Return (head (filter (Spec.mirrors prefix) files)))
      as Hres.
    { unfold resolved, files, tracked, prefix.
      rewrite (getFilePath_spec _ _ _ _ _ Hnew).
      fold prefix in Hne. unfold prefix in Hne.
      destruct (packageParts tracePath); [done|].
      by rewrite bool_decide_eq_false_2. }
    split; [done|]. rewrite Hres. split; [|split; [|split]].
    + split.
      * intros [filePath [= Hhead]].
        destruct (filter _ files) as [|p ps] eqn:Hf; [done|].
        assert (p ∈ filter (Spec.mirrors prefix) files) as Hp
          by (rewrite Hf; apply list_elem_of_here).
        apply list_elem_of_filter in Hp as [Hm Hp].
        apply list_elem_of_fmap in Hp as (raw & -> & Hraw).
        apply list_elem_of_filter in Hraw as [? ?]. by exists raw.
      * intros (raw & Hraw & Hbase & Hm).
        destruct (filter _ files) as [|p ps] eqn:Hf; [|by eexists].
        exfalso.
        eapply (filter_nil_not_elem_of _ _ (normalizeFilePath raw)); [done..|].
        apply list_elem_of_fmap. exists raw. split; [done|].
        by apply list_elem_of_filter.
    + intros filePath [= Hhead]. by apply head_filter_Some in Hhead.
    + by intros ->.
    + intros Hall. f_equal. apply head_None. clear Hres.
      induction Hall as [|p ps Hp _ IH]; [done|].
      rewrite filter_cons. by rewrite decide_False.
  - intros filePath Hshort [Hle _]. lia.
  - apply getFilePath_without_prefix.
  - intros Hne Hin. unfold resolved.
    rewrite (getFilePath_spec _ _ _ _ _ Hnew).
    fold prefix. destruct prefix; [done|]. by rewrite bool_decide_eq_true_2.
Qed.

End Resolution.

Lemma new_bar_parser :
  new Examples.normalizeFilePath Examples.bar_options
  = Return Examples.bar_parser.
Proof. vm_compute. reflexivity. Qed.

Lemma getFilePath_first_mirroring_candidate_witness :
  getFilePath Examples.bar_parser (js "com.foo.Bar.baz") (js "Bar.java")
  = Return (Some (js "src/com/foo/Bar.java"))
  ∧ getFilePath Examples.bar_parser (js "Bar.baz") (js "Bar.java")
    = Return None
  ∧ getFilePath Examples.bar_parser (js "com.foo.Bar.baz") (js "constructor")
    = Throw mkTypeError.
Proof.
  destruct (getFilePath_first_mirroring_candidate
              Examples.normalizeFilePath Examples.bar_options
              Examples.bar_parser (js "com.foo.Bar.baz") (js "Bar.java")
              new_bar_parser) as (_ & Hsome & _ & _ & _).
  destruct (getFilePath_first_mirroring_candidate
              Examples.normalizeFilePath Examples.bar_options
              Examples.bar_parser (js "Bar.baz") (js "Bar.java")
              new_bar_parser) as (_ & _ & _ & Hnone & _).
  destruct (getFilePath_first_mirroring_candidate
              Examples.normalizeFilePath Examples.bar_options
              Examples.bar_parser (js "com.foo.Bar.baz") (js "constructor")
              new_bar_parser) as (_ & _ & _ & _ & Hthrow).
  split; [|split].
  - destruct Hsome as (-> & _); [by vm_compute| |by vm_compute].
    vm_compute. intros H.
    repeat (apply elem_of_cons in H as [?|H]; [done|]).
    by apply elem_of_nil in H.
  - apply Hnone. by vm_compute.
  - apply Hthrow; [by vm_compute|]. vm_compute. apply list_elem_of_here.
Defined.

(** ** Outcome of a test case *)

(** C5. Outcome classification: a failure element gives [failed] whatever
    the result attribute says; without one, the result attribute
    "Skipped", compared exactly, gives [skipped], and anything else,
    "skipped" in lower case included, gives [success]. *)
Theorem getTestCaseResult_priority :
  (∀ attrs f, getTestCaseResult (mkTestCase attrs (Some f)) = failed)
  ∧ (∀ attrs, tc_result attrs = js "Skipped" →
       getTestCaseResult (mkTestCase attrs None) = skipped)
  ∧ (∀ attrs, tc_result attrs ≠ js "Skipped" →
       getTestCaseResult (mkTestCase attrs None) = success)
  ∧ (∀ c f n d,
       getTestCaseResult
         (mkTestCase (mkTestCaseAttrs c f n d (js "skipped")) None) = success).
Proof.
  split; [done|]. split; [|split; [|done]].
  - intros attrs Hr. unfold getTestCaseResult. simpl.
    by rewrite bool_decide_eq_true_2.
  - intros attrs Hr. unfold getTestCaseResult. simpl.
    by rewrite bool_decide_eq_false_2.
Qed.

Lemma getTestCaseResult_priority_witness :
  getTestCaseResult
    (mkTestCase (mkTestCaseAttrs (js "C") None (js "t") (js "0") (js "Skipped"))
       None) = skipped
  ∧ getTestCaseResult
      (mkTestCase (mkTestCaseAttrs (js "C") None (js "t") (js "0") (js "Passed"))
         None) = success.
Proof.
  destruct getTestCaseResult_priority as (_ & Hskipped & Hother & _).
  split; [by apply Hskipped | by apply Hother].
Defined.

(** ** Groups of a suite *)

Lemma getGroups_nonempty attrs tc cases nested :
  getGroups (mkTestSuite attrs (Some (tc :: cases)) nested) ≠ [].
Proof. by rewrite getGroups_spec. Qed.

Lemma getGroups_nested_irrelevant attrs cases nested nested' :
  getGroups (mkTestSuite attrs cases nested)
  = getGroups (mkTestSuite attrs cases nested').
Proof. done. Qed.

(** Every result built by [getGroups] lacks the error: the group builder
    passes [undefined] and never consults [getTestCaseError]. *)
Lemma getGroups_error_absent suite :
  Forall (λ g, Forall (λ r, tcr_error r = None) (tgr_tests g)) (getGroups suite).
Proof.
  rewrite getGroups_spec. destruct (ts_test_case suite) as [cases|]; [|done].
  apply Forall_fmap, Forall_forall. intros k _. simpl.
  apply Forall_fmap, Forall_forall. by intros tc _.
Qed.

(** C6. Grouping is by classname: the group keys are the distinct
    classnames in first-seen order, each group holds the results of the
    cases of its classname in their original order, and a suite without a
    test-case list has no group. The name of every result is the name of
    its case without the white space at its two ends: it has no white
    space at either end, and the name of the case is that name between
    two runs of white space. *)
Theorem getGroups_by_classname_first_seen :
  (∀ attrs nested, getGroups (mkTestSuite attrs None nested) = [])
  ∧ (∀ attrs cases nested,
       let groups := getGroups (mkTestSuite attrs (Some cases) nested) in
       tgr_name <$> groups = Spec.distinct (tc_classname ∘ tc_attrs <$> cases)
       ∧ Forall (λ g,
           tgr_tests g =
             caseResult <$>
               filter (λ tc, tc_classname (tc_attrs tc) = tgr_name g) cases)
           groups)
  ∧ (∀ tc,
       let name := tcr_name (caseResult tc) in
       Spec.trimmed name
       ∧ ∃ before after,
           tc_name (tc_attrs tc) = before ++ name ++ after
           ∧ Forall (λ c, is_white_space c = true) before
           ∧ Forall (λ c, is_white_space c = true) after)
  ∧ (∀ suite,
       Forall (λ g, Forall (λ r, Spec.trimmed (tcr_name r)) (tgr_tests g))
         (getGroups suite)).
Proof.
  assert (∀ tc, Spec.trimmed (tcr_name (caseResult tc))) as Htrimmed.
  { intros tc. simpl.
    destruct (trim_spec (tc_name (tc_attrs tc))) as (_ & _ & _ & _ & _ & ? & ?).
    by split. }
  split; [done|]. split; [|split].
  - intros attrs cases nested groups. unfold groups.
    rewrite getGroups_spec. simpl. split.
    + rewrite <- list_fmap_compose. apply list_fmap_id.
    + apply Forall_fmap, Forall_forall. by intros k _.
  - intros tc name. split; [apply Htrimmed|]. unfold name. simpl.
    destruct (trim_spec (tc_name (tc_attrs tc)))
      as (before & after & Heq & Hbefore & Hafter & _).
    by exists before, after.
  - intros suite. rewrite getGroups_spec.
    destruct (ts_test_case suite) as [cases|]; [|done].
    apply Forall_fmap, Forall_forall. intros k _. simpl.
    apply Forall_fmap, Forall_forall. intros tc _. apply Htrimmed.
Qed.

(** ** Suite traversal *)

(** C4. Suites are visited in document order and each one's result is
    appended to the accumulator before its nested suites are looked at
    (pre-order); the nested suites are visited, one level deeper, exactly
    when the suite has no group; a suite with a non-empty test-case list
    has groups, so its nested suites are never visited and have no effect
    on the result. *)
Theorem traversal_preorder_descends_without_groups :
  (∀ testSuites suiteResults depth,
     getTestSuiteResultRecursive testSuites suiteResults depth
     = suiteResults ++ Spec.preorder depth testSuites)
  ∧ (∀ suiteResults depth,
       getTestSuiteResultRecursive None suiteResults depth = suiteResults
       ∧ getTestSuiteResultRecursive (Some []) suiteResults depth = suiteResults)
  ∧ (∀ ts rest suiteResults depth,
       getTestSuiteResultRecursive (Some (ts :: rest)) suiteResults depth
       = getTestSuiteResultRecursive (Some rest)
           (match getGroups ts with
            | [] =>
                getTestSuiteResultRecursive (ts_test_suite ts)
                  (suiteResults ++ [suiteResult ts depth]) (S depth)
            | _ :: _ => suiteResults ++ [suiteResult ts depth]
            end) depth)
  ∧ (∀ attrs tc cases nested rest suiteResults depth,
       let ts := mkTestSuite attrs (Some (tc :: cases)) nested in
       getTestSuiteResultRecursive (Some (ts :: rest)) suiteResults depth
       = getTestSuiteResultRecursive (Some rest)
           (suiteResults ++ [suiteResult ts depth]) depth
       ∧ getTestSuiteResultRecursive (Some (ts :: rest)) suiteResults depth
         = getTestSuiteResultRecursive
             (Some (mkTestSuite attrs (Some (tc :: cases)) None :: rest))
             suiteResults depth).
Proof.
  assert (∀ ts rest suiteResults depth,
       getTestSuiteResultRecursive (Some (ts :: rest)) suiteResults depth
       = getTestSuiteResultRecursive (Some rest)
           (match getGroups ts with
            | [] =>
                getTestSuiteResultRecursive (ts_test_suite ts)
                  (suiteResults ++ [suiteResult ts depth]) (S depth)
            | _ :: _ => suiteResults ++ [suiteResult ts depth]
            end) depth) as Hstep.
  { intros ts rest acc depth. simpl. rewrite visitSuite_unfold. simpl.
    by destruct (getGroups ts). }
  split; [apply getTestSuiteResultRecursive_preorder|].
  split; [done|]. split; [exact Hstep|].
  intros attrs tc cases nested rest acc depth ts.
  rewrite !Hstep.
  pose proof (getGroups_nonempty attrs tc cases nested) as Hne.
  pose proof (getGroups_nonempty attrs tc cases None) as Hne'.
  fold ts in Hne. destruct (getGroups ts) eqn:Hts; [done|].
  destruct (getGroups (mkTestSuite attrs (Some (tc :: cases)) None)); done.
Qed.

(** ** Durations *)

(** A number that is not a number stays so when multiplied. *)
Lemma mul_NaN x y : isNaN x = true → mul x y = NaN.
Proof. by destruct x. Qed.

(** C8. The duration of a suite result is the parsed duration attribute
    times 1000: "1.5" gives 1500, and an attribute that does not parse
    gives NaN, which the result carries. *)
Theorem suite_duration_in_milliseconds :
  (∀ ts rest suiteResults depth,
     ∃ sr,
       getTestSuiteResultRecursive (Some (ts :: rest)) suiteResults depth
         !! length suiteResults = Some sr
       ∧ tsr_time sr = mul (parseFloat (ts_duration (ts_attrs ts))) (of_Z 1000))
  ∧ (∀ testSuites suiteResults depth,
       Forall (λ sr,
          sr ∈ suiteResults
          ∨ ∃ ts d,
              sr = suiteResult ts d
              ∧ tsr_time sr
                = mul (parseFloat (ts_duration (ts_attrs ts))) (of_Z 1000))
         (getTestSuiteResultRecursive testSuites suiteResults depth))
  ∧ (∀ ts depth,
       ts_duration (ts_attrs ts) = js "1.5" →
       tsr_time (suiteResult ts depth) = of_Z 1500)
  ∧ (∀ ts depth,
       isNaN (parseFloat (ts_duration (ts_attrs ts))) = true →
       tsr_time (suiteResult ts depth) = NaN)
  ∧ parseFloat (js "n/a") = NaN.
Proof.
  split; [|split; [|split; [|split; [|reflexivity]]]].
  - intros ts rest acc depth. exists (suiteResult ts depth).
    rewrite getTestSuiteResultRecursive_preorder. split; [|done].
    rewrite lookup_app_r, Nat.sub_diag by done. simpl.
    by rewrite preorder_suite_unfold.
  - intros suites acc depth. rewrite getTestSuiteResultRecursive_preorder.
    apply Forall_app. split.
    + apply Forall_forall. by left.
    + eapply Forall_impl; [apply preorder_results|].
      intros sr (ts & d & ->). right. by exists ts, d.
  - intros ts depth Hd. simpl. by rewrite Hd.
  - intros ts depth Hnan. by apply mul_NaN.
Qed.

Lemma suite_duration_in_milliseconds_witness :
  tsr_time (suiteResult Examples.bar_suite 0) = of_Z 1500
  ∧ tsr_time
      (suiteResult
         (mkTestSuite
            (mkTestSuiteAttrs (js "S") (js "0") (js "0") (js "0") (js "0")
               (js "0") (js "soon"))
            None None) 0) = NaN.
Proof.
  destruct suite_duration_in_milliseconds as (_ & _ & Hms & Hnan & _).
  split; [by apply Hms | by apply Hnan].
Defined.

(** C7. The duration of the run is the parsed time attribute times 1000
    when the attribute is there and parses; it is absent when the
    attribute, or the whole attribute object, is missing or does not
    parse. *)
Theorem run_duration_present_when_time_parses :
  (∀ filePath time suites,
     isNaN (parseFloat time) = false →
     trr_time
       (getTestRunResult filePath
          (mkNunitReport (mkTestRun (Some (mkTestRunAttrs (Some time))) suites)))
     = Some (mul (parseFloat time) (of_Z 1000)))
  ∧ (∀ filePath time suites,
       isNaN (parseFloat time) = true →
       trr_time
         (getTestRunResult filePath
            (mkNunitReport
               (mkTestRun (Some (mkTestRunAttrs (Some time))) suites)))
       = None)
  ∧ (∀ filePath suites,
       trr_time
         (getTestRunResult filePath
            (mkNunitReport (mkTestRun (Some (mkTestRunAttrs None)) suites)))
       = None)
  ∧ (∀ filePath suites,
       trr_time
         (getTestRunResult filePath (mkNunitReport (mkTestRun None suites)))
       = None).
Proof.
  split; [|split; [|split]]; try done.
  - intros filePath time suites Hnum. unfold getTestRunResult. simpl.
    unfold parseFloat_opt. simpl. by rewrite Hnum.
  - intros filePath time suites Hnan. unfold getTestRunResult. simpl.
    unfold parseFloat_opt. simpl. by rewrite Hnan.
Qed.

Lemma run_duration_present_when_time_parses_witness :
  trr_time (getTestRunResult (js "report.xml") Examples.bar_report)
  = Some (of_Z 2000)
  ∧ trr_time
      (getTestRunResult (js "report.xml")
         (mkNunitReport
            (mkTestRun (Some (mkTestRunAttrs (Some (js "fast")))) None)))
    = None.
Proof.
  destruct run_duration_present_when_time_parses as (Hnum & Hnan & _).
  split.
  - unfold Examples.bar_report. rewrite Hnum by reflexivity. reflexivity.
  - by apply Hnan.
Defined.

(** ** The functions at run time *)

Section CompletionFacts.

Lemma returns_true {A} (r : Result A) : returns r = true ↔ ∃ v, r = Return v.
Proof.
  destruct r as [v|e]; simpl; split; try done.
  - by exists v.
  - by intros [? ?].
Qed.

Lemma returns_false {A} (r : Result A) :
  returns r = false ↔ r = Throw mkTypeError.
Proof. destruct r as [v|[]]; simpl; split; done. Qed.

Lemma bind_Return {A B} (m : Result A) (f : A → Result B) v :
  m ≫= f = Return v ↔ ∃ x, m = Return x ∧ f x = Return v.
Proof.
  destruct m as [x|e]; simpl; split; try done.
  - intros H. by exists x.
  - by intros (? & [= <-] & ?).
  - by intros (? & ? & _).
Qed.




Lemma mapM_Return_Forall {A B} (f : A → Result B) (P : B → Prop) l l' :
  (∀ x y, f x = Return y → P y) → mapM f l = Return l' → Forall P l'.
Proof.
  intros Hf. revert l'. induction l as [|x l IH]; intros l'.
  - by intros [= <-].
  - cbn [mapM]. intros (y & Hy & (ys & Hys & [= <-])%bind_Return)%bind_Return.
    constructor; [by eapply Hf | by apply IH].
Qed.


End CompletionFacts.

Section RunTimeFacts.

Import Spec.

Lemma Raw_TestSuite_forest_ind (P : Raw.TestSuite → Prop) :
  (∀ attrs cases nested,
     from_option (Forall P) True nested →
     P (Raw.mkTestSuite attrs cases nested)) →
  ∀ ts, P ts.
Proof.
  intros step. fix go 1. intros [attrs cases nested]. apply step.
  destruct nested as [l|]; simpl; [|exact I].
  induction l as [|ts l IH]; constructor; [apply go | exact IH].
Qed.

(** *** On a report of the declared types *)








Lemma visitSuite_at_run_time ts suiteResults depth :
  RunTime.visitSuite ts suiteResults depth =
    attrs ← read (Raw.ts_attrs ts);
    name ← read (Raw.ts_name attrs);
    groups ← RunTime.getGroups ts;
    let sr := {| Raw.tsr_name := trim name; Raw.tsr_groups := groups;
                 Raw.tsr_time :=
                   mul (parseFloat_opt (Raw.ts_duration attrs)) (of_Z 1000);
                 Raw.tsr_depth := depth |} in
    if (length groups =? 0)%nat
    then RunTime.getTestSuiteResultRecursive (Raw.ts_test_suite ts)
           (suiteResults ++ [sr]) (S depth)
    else Return (suiteResults ++ [sr]).
Proof.
  destruct ts as [attrs cases nested]. cbn [RunTime.visitSuite Raw.ts_attrs].
  destruct attrs as [attrs|]; [|done]. cbn [read mbind Result_bind].
  destruct (Raw.ts_name attrs) as [name|]; [|done]. cbn [read mbind Result_bind].
  destruct (RunTime.getGroups _) as [groups|]; [|done]. cbn [mbind Result_bind].
  cbv zeta. destruct (length groups =? 0)%nat; [|done].
  cbn [Raw.ts_test_suite]. destruct nested as [l|]; [|done].
  unfold RunTime.getTestSuiteResultRecursive.
  generalize
    (suiteResults ++
       [{| Raw.tsr_name := trim name; Raw.tsr_groups := groups;
           Raw.tsr_time :=
             mul (parseFloat_opt (Raw.ts_duration attrs)) (of_Z 1000);
           Raw.tsr_depth := depth |}]).
  induction l as [|ts l IH]; intros acc; [done|]. cbn [foldlM].
  destruct (RunTime.visitSuite ts acc (S depth)) as [acc'|]; [|done].
  cbn [mbind Result_bind]. apply IH.
Qed.




(** *** Which values can be read *)




Lemma caseResult_error_absent tc r :
  RunTime.caseResult tc = Return r → tcr_error r = None.
Proof.
  unfold RunTime.caseResult.
  intros (attrs & _ & (name & _ & (result & _ & [= <-])%bind_Return)
            %bind_Return)%bind_Return.
  done.
Qed.






Lemma getGroups_error_absent_at_run_time ts groups :
  RunTime.getGroups ts = Return groups →
  Forall (λ g, Forall (λ r, tcr_error r = None) (Raw.tgr_tests g)) groups.
Proof.
  unfold RunTime.getGroups.
  destruct (Raw.ts_test_case ts) as [cases|]; [|by intros [= <-]].
  intros (pending & _ & Hmap)%bind_Return.
  eapply mapM_Return_Forall; [|exact Hmap]. simpl.
  intros grp g (tests & Htests & [= <-])%bind_Return. simpl.
  eapply mapM_Return_Forall; [|exact Htests]. apply caseResult_error_absent.
Qed.





(** *** No result carries an error *)

Lemma visitSuite_error_absent ts : ∀ suiteResults depth suiteResults',
  RunTime.visitSuite ts suiteResults depth = Return suiteResults' →
  Forall (λ sr,
     Forall (λ g, Forall (λ r, tcr_error r = None) (Raw.tgr_tests g))
       (Raw.tsr_groups sr)) suiteResults →
  Forall (λ sr,
     Forall (λ g, Forall (λ r, tcr_error r = None) (Raw.tgr_tests g))
       (Raw.tsr_groups sr)) suiteResults'.
Proof.
  induction ts as [attrs cases nested IH] using Raw_TestSuite_forest_ind.
  intros acc depth acc'. rewrite visitSuite_at_run_time.
  intros (a & _ & (name & _ & (groups & Hgroups & Hrest)%bind_Return)
            %bind_Return)%bind_Return Hacc.
  apply getGroups_error_absent_at_run_time in Hgroups.
  cbv zeta in Hrest.
  set (sr := {| Raw.tsr_name := trim name; Raw.tsr_groups := groups;
                Raw.tsr_time := _; Raw.tsr_depth := depth |}) in Hrest.
  assert (Forall (λ sr,
            Forall (λ g, Forall (λ r, tcr_error r = None) (Raw.tgr_tests g))
              (Raw.tsr_groups sr)) (acc ++ [sr])) as Hacc1.
  { apply Forall_app. split; [done|]. by constructor. }
  destruct (length groups =? 0)%nat; [|by injection Hrest as <-].
  cbn [Raw.ts_test_suite] in Hrest.
  destruct nested as [l|]; [|by injection Hrest as <-].
  unfold RunTime.getTestSuiteResultRecursive in Hrest. simpl in IH.
  revert Hrest Hacc1. generalize (acc ++ [sr]). clear Hacc.
  induction IH as [|ts l Hts _ IHl]; intros acc1.
  - by intros [= <-].
  - cbn [foldlM]. intros (acc2 & Hvisit & Hrest)%bind_Return Hacc1.
    apply (IHl acc2); [done|]. by eapply Hts.
Qed.

Lemma getTestRunResult_error_absent_at_run_time filePath nunit result :
  RunTime.getTestRunResult filePath nunit = Return result →
  Forall (λ sr,
     Forall (λ g, Forall (λ r, tcr_error r = None) (Raw.tgr_tests g))
       (Raw.tsr_groups sr))
    (Raw.trr_suites result).
Proof.
  unfold RunTime.getTestRunResult.
  intros (root & _ & (run & _ & (suites & Hsuites & [= <-])%bind_Return)
            %bind_Return)%bind_Return.
  simpl. revert Hsuites. unfold RunTime.getTestSuiteResultRecursive.
  destruct (Raw.tr_test_suite run) as [l|]; [|by intros [= <-]].
  assert (Forall (λ sr,
            Forall (λ g, Forall (λ r, tcr_error r = None) (Raw.tgr_tests g))
              (Raw.tsr_groups sr)) []) as Hacc by done.
  revert Hacc. generalize (@nil Raw.TestSuiteResult). generalize 0%nat.
  induction l as [|ts l IH]; intros depth acc Hacc.
  - by intros [= <-].
  - cbn [foldlM]. intros (acc' & Hvisit & Hrest)%bind_Return.
    apply (IH depth acc'); [|done]. by eapply visitSuite_error_absent.
Qed.

End RunTimeFacts.

(** ** The parse operation *)




(** ** Errors of failed cases *)

(** The scan of the trace answers with the first line that is a frame and
    resolves; the lines before it are not frames or do not resolve. *)
Lemma exceptionThrowSource_loop_first self lines filePath line :
  exceptionThrowSource_loop self lines = Return (Some (filePath, line)) →
  ∃ i str tracePath fileName lineStr,
    lines !! i = Some str
    ∧ Regex.exec re str = Some [tracePath; fileName; lineStr]
    ∧ getFilePath self tracePath fileName = Return (Some filePath)
    ∧ line = parseInt_digits lineStr
    ∧ ∀ j str', (j < i)%nat → lines !! j = Some str' →
        ∀ tp fn ln, Regex.exec re str' = Some [tp; fn; ln] →
                    getFilePath self tp fn = Return None.
Proof.
  induction lines as [|str lines IH]; [done|].
  cbn [exceptionThrowSource_loop].
  destruct (Regex.exec re str) as [caps|] eqn:Hexec.
  - destruct (exec_re_shape _ _ Hexec) as (tp & fn & ln & -> & _).
    destruct (getFilePath self tp fn) as [[p|]|] eqn:Hpath;
      cbn [mbind Result_bind]; [| |done].
    + intros [= <- <-]. exists 0%nat, str, tp, fn, ln.
      repeat split; try done. intros j str' Hj. lia.
    + intros (i & str0 & tp0 & fn0 & ln0 & ? & ? & ? & ? & Hbefore)%IH.
      exists (S i), str0, tp0, fn0, ln0. repeat split; try done.
      intros [|j] str' Hj Hlook; simpl in Hlook.
      * injection Hlook as <-. intros tp' fn' ln' Hex. congruence.
      * apply (Hbefore j); [lia|done].
  - intros (i & str0 & tp0 & fn0 & ln0 & ? & ? & ? & ? & Hbefore)%IH.
    exists (S i), str0, tp0, fn0, ln0. repeat split; try done.
    intros [|j] str' Hj Hlook; simpl in Hlook.
    + injection Hlook as <-. intros tp' fn' ln' Hex. congruence.
    + apply (Hbefore j); [lia|done].
Qed.

(** With error parsing off there is no error, failure or not. *)
Lemma getTestCaseError_disabled self tc :
  parseErrors (options self) = false →
  getTestCaseError self tc = Return None.
Proof. intros H. unfold getTestCaseError. by rewrite H. Qed.

(** What [getTestCaseError] computes when error parsing is on: the stack
    trace as detail, the message of the failure, and the path and line of
    the first frame that resolves against the tracked files. *)
Lemma getTestCaseError_enabled self attrs f :
  parseErrors (options self) = true →
  getTestCaseError self (mkTestCase attrs (Some f)) =
    src ← exceptionThrowSource self (stack_trace f);
    Return (Some {| err_path := fst <$> src;
                    err_line := snd <$> src;
                    err_details := stack_trace f;
                    err_message := Some (message f) |}).
Proof. intros H. unfold getTestCaseError. by rewrite H. Qed.

(** No result of the parse operation carries an error, whatever the
    options. *)
Lemma getTestRunResult_error_absent filePath nunit :
  Forall (λ sr,
     Forall (λ g, Forall (λ r, tcr_error r = None) (tgr_tests g))
       (tsr_groups sr))
    (trr_suites (getTestRunResult filePath nunit)).
Proof.
  unfold getTestRunResult. simpl.
  rewrite getTestSuiteResultRecursive_preorder. simpl.
  generalize 0%nat.
  destruct (tr_test_suite (test_run nunit)) as [l|]; simpl; [|done].
  induction l as [|ts l IH]; intros depth; simpl; [done|].
  apply Forall_app. split; [|apply IH]. clear IH l. revert depth.
  induction ts as [attrs cases nested IH] using TestSuite_forest_ind.
  intros depth. rewrite preorder_suite_unfold. constructor.
  - apply getGroups_error_absent.
  - simpl. destruct (getGroups _); [|done].
    destruct nested as [l|]; simpl in *; [|done].
    induction IH as [|ts l Hts _ IHl]; simpl; [done|].
    apply Forall_app. split; [apply Hts | apply IHl].
Qed.

(** C1. With error parsing enabled and the trace line
    "at com.foo.Bar.baz(Bar.java:42)" against the tracked file
    "src/com/foo/Bar.java", [getTestCaseError] yields the error with that
    path, line 42, the trace as detail and the message; the result of the
    parse operation for this very case carries no error at all, because
    the group builder never asks for it. *)
Theorem parse_drops_error_of_failed_case :
  new Examples.normalizeFilePath Examples.bar_options
  = Return Examples.bar_parser
  ∧ getTestCaseError Examples.bar_parser Examples.bar_case
    = Return
        (Some {| err_path := Some (js "src/com/foo/Bar.java");
                 err_line := Some (of_Z 42);
                 err_details := js "at com.foo.Bar.baz(Bar.java:42)";
                 err_message := Some (js "boom") |})
  ∧ parse Examples.one_document id Examples.bar_parser
      (js "report.xml") (js "<test-run time='2'>...</test-run>")
    = Resolved
        {| Raw.trr_path := js "report.xml";
           Raw.trr_suites :=
             [ {| Raw.tsr_name := js "BarTests";
                  Raw.tsr_groups :=
                    [ {| Raw.tgr_name := Some (js "com.foo.BarTest");
                         Raw.tgr_tests :=
                           [ {| tcr_name := js "baz";
                                tcr_result := failed;
                                tcr_time := of_Z 500;
                                tcr_error := None |} ] |} ];
                  Raw.tsr_time := of_Z 1500;
                  Raw.tsr_depth := 0 |} ];
           Raw.trr_time := Some (of_Z 2000) |}.
Proof. repeat split; vm_compute; reflexivity. Qed.

(** ** The examples of the specification *)

Section SpecificationExamples.

Import Examples.

(** A passing case: [success], grouped under its classname, name trimmed. *)
Example minimal_report_passing_case :
  getGroups
    (mkTestSuite (ts_attrs bar_suite)
       (Some [mkTestCase
                (mkTestCaseAttrs (js "com.foo.BarTest") None (js "  ok  ")
                   (js "0.5") (js "Passed")) None]) None)
  = [ {| tgr_name := js "com.foo.BarTest";
         tgr_tests := [ {| tcr_name := js "ok"; tcr_result := success;
                           tcr_time := of_Z 500; tcr_error := None |} ] |} ].
Proof. vm_compute. reflexivity. Qed.

(** A suite with cases and a nested suite: the nested suite is ignored. *)
Example mixed_suite_ignores_nested :
  tsr_name <$> getTestSuiteResultRecursive (Some [mixed_suite]) [] 0
  = [js "Mixed"].
Proof. vm_compute. reflexivity. Qed.

(** A suite without cases and with a nested suite: no group at its level,
    and the nested suite one level deeper. *)
Example container_suite_descends :
  (λ sr, (tsr_name sr, length (tsr_groups sr), tsr_depth sr))
    <$> getTestSuiteResultRecursive (Some [container_suite]) [] 0
  = [(js "Outer", 0%nat, 0%nat); (js "Mixed", 1%nat, 1%nat)].
Proof. vm_compute. reflexivity. Qed.

(** The trace line of the specification resolves to the tracked file and
    to line 42. *)
Example trace_line_resolves :
  exceptionThrowSource bar_parser (js "at com.foo.Bar.baz(Bar.java:42)")
  = Return (Some (js "src/com/foo/Bar.java", of_Z 42)).
Proof. vm_compute. reflexivity. Qed.

(** A file name that is not tracked resolves to nothing; the error keeps
    its detail and message. *)
Example untracked_file_keeps_detail :
  getTestCaseError bar_parser
    (mkTestCase (tc_attrs bar_case)
       (Some (mkFailure (js "at com.foo.Qux.run(Qux.java:7)") (js "boom"))))
  = Return
      (Some {| err_path := None; err_line := None;
               err_details := js "at com.foo.Qux.run(Qux.java:7)";
               err_message := Some (js "boom") |}).
Proof. vm_compute. reflexivity. Qed.

(** A later frame is used when the first one does not resolve; a carriage
    return before the line feed belongs to the separator. *)
Example second_frame_resolves :
  exceptionThrowSource bar_parser
    (js "java.lang.IllegalStateException: boom" ++ [13; 10]
       ++ js "at org.lib.Tool.run(Tool.java:7)" ++ [13; 10]
       ++ js "at com.foo.Bar.baz(Bar.java:42)" ++ [10])
  = Return (Some (js "src/com/foo/Bar.java", of_Z 42)).
Proof. vm_compute. reflexivity. Qed.

(** A frame that names an inherited property breaks the scan. *)
Example inherited_name_breaks_scan :
  exceptionThrowSource bar_parser
    (js "at com.foo.Bar.baz(constructor:42)" ++ [10]
       ++ js "at com.foo.Bar.baz(Bar.java:42)")
  = Throw mkTypeError.
Proof. vm_compute. reflexivity. Qed.

(** A tracked file with an inherited base name breaks the constructor. *)
Example inherited_name_breaks_constructor :
  new normalizeFilePath constructor_options = Throw mkTypeError.
Proof. vm_compute. reflexivity. Qed.

(** A case without classname and duration, in a suite without duration:
    the group has no name, and the two durations are not numbers. *)
Example missing_attributes_degrade :
  parse one_document id bar_parser (js "report.xml") sparse_document
  = Resolved
      {| Raw.trr_path := js "report.xml";
         Raw.trr_suites :=
           [ {| Raw.tsr_name := js "Sparse";
                Raw.tsr_groups :=
                  [ {| Raw.tgr_name := None;
                       Raw.tgr_tests :=
                         [ {| tcr_name := js "ok"; tcr_result := success;
                              tcr_time := NaN; tcr_error := None |} ] |} ];
                Raw.tsr_time := NaN;
                Raw.tsr_depth := 0 |} ];
         Raw.trr_time := None |}.
Proof. vm_compute. reflexivity. Qed.

End SpecificationExamples.

(** * Further properties of the parser *)

(** ** Numbers that are not numbers *)

Section NumberFacts.

Variables p emx : Z.

Lemma shr_1_nonneg mrs : (0 ≤ shr_m mrs)%Z → (0 ≤ shr_m (shr_1 mrs))%Z.
Proof. destruct mrs as [[|[q|q|]|q] r s]; simpl; lia. Qed.

Lemma iter_pos_shr_1_nonneg n mrs :
  (0 ≤ shr_m mrs)%Z → (0 ≤ shr_m (SpecFloat.iter_pos shr_1 n mrs))%Z.
Proof.
  revert mrs. induction n as [n IH|n IH|]; intros mrs Hm; simpl.
  - apply IH, IH. by apply shr_1_nonneg.
  - by apply IH, IH.
  - by apply shr_1_nonneg.
Qed.

Lemma shr_nonneg mrs e n :
  (0 ≤ shr_m mrs)%Z → (0 ≤ shr_m (fst (shr mrs e n)))%Z.
Proof.
  intros Hm. unfold shr. destruct n; simpl; [done| |done].
  by apply iter_pos_shr_1_nonneg.
Qed.

Lemma shr_fexp_nonneg m e l :
  (0 ≤ m)%Z → (0 ≤ shr_m (fst (shr_fexp p emx m e l)))%Z.
Proof.
  intros Hm. unfold shr_fexp. apply shr_nonneg. by destruct l as [|[]].
Qed.

(** Rounding a positive mantissa never gives NaN. *)
Lemma binary_round_aux_not_NaN s m e l :
  isNaN (binary_round_aux p emx s (Z.pos m) e l) = false.
Proof.
  unfold binary_round_aux.
  pose proof (shr_fexp_nonneg (Z.pos m) e l ltac:(lia)) as H1.
  destruct (shr_fexp p emx (Z.pos m) e l) as [mrs' e']. simpl in H1.
  assert (0 ≤ round_nearest_even (shr_m mrs') (loc_of_shr_record mrs'))%Z as H2.
  { unfold round_nearest_even.
    destruct (loc_of_shr_record mrs') as [|[]]; try lia.
    destruct (Z.even _); lia. }
  pose proof (shr_fexp_nonneg _ e' loc_Exact H2) as H3.
  destruct (shr_fexp p emx _ e' loc_Exact) as [mrs'' e'']. simpl in H3.
  destruct (shr_m mrs''); [done| |lia].
  by destruct (_ <=? _)%Z.
Qed.

End NumberFacts.

(** The product with 1000 is NaN exactly when the factor is. *)
Lemma isNaN_mul_1000 x : isNaN (mul x (of_Z 1000)) = isNaN x.
Proof.
  replace (of_Z 1000) with (S754_finite false 8796093022208000 (-43))
    by (by vm_compute).
  destruct x as [s|s| |s m e]; [done..|].
  apply binary_round_aux_not_NaN.
Qed.

(** ** Grouping as a partition *)

Section PartitionFacts.

Import Spec.

Lemma filter_disjoint_app {A} (P Q : A → Prop)
    `{∀ x, Decision (P x), ∀ x, Decision (Q x)} (l : list A) :
  (∀ x, P x → Q x → False) →
  filter P l ++ filter Q l ≡ₚ filter (λ x, P x ∨ Q x) l.
Proof.
  intros Hdisj. induction l as [|x l IH]; [done|].
  rewrite !filter_cons.
  destruct (decide (P x)) as [HP|HP]; destruct (decide (Q x)) as [HQ|HQ].
  - destruct (Hdisj x HP HQ).
  - rewrite decide_True by (by left). simpl. by rewrite IH.
  - rewrite decide_True by (by right).
    rewrite <- Permutation_middle. by rewrite IH.
  - rewrite decide_False by tauto. done.
Qed.

Lemma filter_Forall_id {A} (P : A → Prop) `{∀ x, Decision (P x)} (l : list A) :
  Forall P l → filter P l = l.
Proof.
  induction 1 as [|x l Hx _ IH]; [done|].
  rewrite filter_cons, decide_True by done. by rewrite IH.
Qed.

(** The blocks of the cases under pairwise distinct keys hold, together,
    the cases whose classname is one of the keys. *)
Lemma concat_blocks keys (l : list TestCase) :
  NoDup keys →
  concat ((λ k, filter (λ tc, tc_classname (tc_attrs tc) = k) l) <$> keys)
  ≡ₚ filter (λ tc, tc_classname (tc_attrs tc) ∈ keys) l.
Proof.
  induction 1 as [|k keys Hk _ IH]; simpl.
  - symmetry. apply Permutation_nil_r.
    induction l as [|tc l IHl]; [done|].
    rewrite filter_cons, decide_False by apply not_elem_of_nil. done.
  - rewrite IH, filter_disjoint_app.
    + apply reflexive_eq, list_filter_iff. intros tc. by rewrite elem_of_cons.
    + intros tc -> Hin. done.
Qed.

(** X8. Grouping neither loses nor repeats a case: the results of all
    groups together are, up to order, the results of the cases; the group
    names are pairwise distinct; no group is empty; and there is no group
    exactly when there is no case. *)
Theorem getGroups_partition attrs cases nested :
  let groups := getGroups (mkTestSuite attrs (Some cases) nested) in
  concat (tgr_tests <$> groups) ≡ₚ caseResult <$> cases
  ∧ NoDup (tgr_name <$> groups)
  ∧ Forall (λ g, tgr_tests g ≠ []) groups
  ∧ (groups = [] ↔ cases = []).
Proof.
  intros groups. unfold groups. rewrite getGroups_spec. simpl.
  set (keys := distinct (tc_classname ∘ tc_attrs <$> cases)).
  assert (NoDup keys) as Hnd by apply NoDup_distinct.
  split; [|split; [|split]].
  - rewrite <- list_fmap_compose.
    transitivity
      (caseResult <$>
         concat ((λ k, filter (λ tc, tc_classname (tc_attrs tc) = k) cases)
                   <$> keys)).
    { clear Hnd. induction keys as [|k keys IH]; simpl; [done|].
      by rewrite fmap_app, IH. }
    apply fmap_Permutation. rewrite concat_blocks by done.
    rewrite filter_Forall_id; [done|]. apply Forall_forall. intros tc Htc.
    apply elem_of_distinct, list_elem_of_fmap. by exists tc.
  - rewrite <- list_fmap_compose. by rewrite list_fmap_id.
  - apply Forall_fmap, Forall_forall. intros k Hk. simpl.
    apply elem_of_distinct, list_elem_of_fmap in Hk as (tc & -> & Htc).
    intros Hnil%fmap_nil_inv.
    eapply (filter_nil_not_elem_of _ _ tc); [exact Hnil|done|done].
  - split.
    + intros Hnil%fmap_nil_inv. destruct cases; [done|]. discriminate.
    + by intros ->.
Qed.

End PartitionFacts.

(** ** Depths in the flat listing *)

Section DepthFacts.

Import Spec.

(** The listing of a suite starts with the suite at the given depth; what
    follows lies deeper. *)
Lemma preorder_suite_depth ts :
  ∀ depth,
    ∃ below,
      preorder_suite depth ts = suiteResult ts depth :: below
      ∧ Forall (λ sr, (depth < tsr_depth sr)%nat) below.
Proof.
  induction ts as [attrs cases nested IH] using TestSuite_forest_ind.
  intros depth. rewrite preorder_suite_unfold. eexists. split; [done|].
  destruct (tsr_groups _); [|done].
  destruct nested as [l|]; simpl in *; [|done].
  induction IH as [|ts l Hts _ IHl]; simpl; [done|].
  apply Forall_app. split; [|done].
  destruct (Hts (S depth)) as (below & -> & Hbelow). constructor; [simpl; lia|].
  eapply Forall_impl; [exact Hbelow|]. simpl. lia.
Qed.

Lemma filter_depth_preorder depth l :
  filter (λ sr, tsr_depth sr = depth) (preorder depth (Some l))
  = (λ ts, suiteResult ts depth) <$> l.
Proof.
  induction l as [|ts l IH]; [done|].
  change (preorder depth (Some (ts :: l)))
    with (preorder_suite depth ts ++ preorder depth (Some l)).
  destruct (preorder_suite_depth ts depth) as (below & -> & Hbelow).
  rewrite filter_app, IH, filter_cons, decide_True by done.
  assert (filter (λ sr, tsr_depth sr = depth) below = []) as ->; [|done].
  clear IH. induction Hbelow as [|sr below Hsr _ IHb]; [done|].
  rewrite filter_cons, decide_False by lia. done.
Qed.

Lemma preorder_depth_ge depth suites :
  Forall (λ sr, (depth ≤ tsr_depth sr)%nat) (preorder depth suites).
Proof.
  destruct suites as [l|]; simpl; [|done].
  induction l as [|ts l IH]; [done|].
  change (preorder depth (Some (ts :: l)))
    with (preorder_suite depth ts ++ preorder depth (Some l)).
  apply Forall_app. split; [|done].
  destruct (preorder_suite_depth ts depth) as (below & -> & Hbelow).
  constructor; [done|]. eapply Forall_impl; [exact Hbelow|]. simpl. lia.
Qed.

(** X9. The traversal leaves the accumulator in front; among what it
    appends, the results at the starting depth are the suites of the
    list, in order, every other result lies deeper, and there are at
    least as many results as suites in the list. *)
Theorem traversal_top_level_at_starting_depth testSuites suiteResults depth :
  let appended :=
    drop (length suiteResults)
      (getTestSuiteResultRecursive testSuites suiteResults depth) in
  take (length suiteResults)
    (getTestSuiteResultRecursive testSuites suiteResults depth) = suiteResults
  ∧ filter (λ sr, tsr_depth sr = depth) appended
    = (λ ts, suiteResult ts depth) <$> default [] testSuites
  ∧ Forall (λ sr, (depth ≤ tsr_depth sr)%nat) appended
  ∧ (length (default [] testSuites) ≤ length appended)%nat.
Proof.
  intros appended. unfold appended.
  rewrite getTestSuiteResultRecursive_preorder.
  rewrite take_app_length, drop_app_length.
  assert (filter (λ sr, tsr_depth sr = depth) (preorder depth testSuites)
          = (λ ts, suiteResult ts depth) <$> default [] testSuites) as Hfilter.
  { destruct testSuites as [l|]; [apply filter_depth_preorder|done]. }
  split; [done|]. split; [done|]. split; [apply preorder_depth_ge|].
  rewrite <- (length_fmap (λ ts, suiteResult ts depth)), <- Hfilter.
  apply length_filter.
Qed.

End DepthFacts.

(** ** What the groups of a frame capture *)

Section CaptureFacts.

Import Regex.

(** The greedy repetition answers with the longest length that lets the
    rest of the pattern match. *)
Lemma try_lengths_longest k min more s n caps :
  (min ≤ n < min + more)%nat →
  k (drop n s) = Some caps →
  (∀ n', (n < n' < min + more)%nat → k (drop n' s) = None) →
  try_lengths k min more s = Some (take n s :: caps).
Proof.
  induction more as [|more IH]; intros Hn Hk Hlonger; simpl; [lia|].
  destruct (decide (n = (min + more)%nat)) as [->|Hne].
  - by rewrite Hk.
  - rewrite Hlonger by lia. apply IH; [lia|done|].
    intros n' Hn'. apply Hlonger. lia.
Qed.

Lemma run_length_le cls s : (run_length cls s ≤ length s)%nat.
Proof.
  induction s as [|c s IH]; simpl; [lia|]. destruct (class_matches cls c); lia.
Qed.

Lemma exec_capture_longest cls min re' cap s caps :
  Forall (λ c, class_matches cls c = true) cap →
  (min ≤ length cap)%nat →
  exec re' s = Some caps →
  (∀ m, (0 < m)%nat → exec re' (drop m s) = None) →
  exec (Capture cls min :: re') (cap ++ s) = Some (cap :: caps).
Proof.
  intros Hcap Hmin Hrest Hlonger. simpl.
  replace (Some (cap :: caps))
    with (Some (take (length cap) (cap ++ s) :: caps))
    by (by rewrite take_app_length).
  apply try_lengths_longest.
  - pose proof (run_length_ge cls cap s Hcap). lia.
  - by rewrite drop_app_length.
  - intros n' Hn'. rewrite drop_app_ge by lia. apply Hlonger. lia.
Qed.

Lemma exec_One_None cls re' s :
  (∀ c, head s = Some c → class_matches cls c = false) →
  exec (One cls :: re') s = None.
Proof.
  intros Hhead. simpl. destruct s as [|c s]; [done|].
  by rewrite (Hhead c).
Qed.

Lemma head_drop_elem_of {A} (l : list A) m c :
  head (drop m l) = Some c → c ∈ l.
Proof.
  rewrite head_lookup, lookup_drop, Nat.add_0_r. apply list_elem_of_lookup_2.
Qed.

(** A line made of "at ", a trace path, a parenthesized file name and
    line number is matched with exactly these three parts, provided the
    file name holds no opening parenthesis. *)
Lemma exec_re_frame tracePath fileName lineStr :
  Forall (λ c, is_line_terminator c = false) tracePath →
  Forall (λ c, is_line_terminator c = false) fileName →
  40 ∉ fileName →
  Forall (λ c, is_digit c = true) lineStr →
  lineStr ≠ [] →
  exec re (js "at " ++ tracePath ++ js "(" ++ fileName ++ js ":"
             ++ lineStr ++ js ")")
  = Some [tracePath; fileName; lineStr].
Proof.
  intros Htp Hfn Hparen Hln Hne.
  assert (∀ c, c ∈ lineStr → is_digit c = true) as Hdigit
    by (by apply Forall_forall).
  change (js "at ") with [97; 116; 32]. change (js "(") with [40].
  change (js ":") with [58]. change (js ")") with [41].
  set (re3 := [Capture Digit 1; One (Lit 41)]).
  set (re2 := Capture Dot 0 :: One (Lit 58) :: re3).
  set (re1 := Capture Dot 0 :: One (Lit 40) :: re2).
  assert (exec re3 (lineStr ++ [41]) = Some [lineStr]) as H3.
  { apply exec_capture_longest; [done| |done|].
    - destruct lineStr; [done|simpl; lia].
    - intros [|m] Hm; [lia|]. simpl. by rewrite drop_nil. }
  assert (exec re2 (fileName ++ [58] ++ lineStr ++ [41])
          = Some [fileName; lineStr]) as H2.
  { apply exec_capture_longest.
    - eapply Forall_impl; [exact Hfn|]. simpl. by intros c ->.
    - simpl. lia.
    - by rewrite <- H3.
    - intros [|m] Hm; [lia|]. apply exec_One_None. intros c Hc. simpl in *.
      apply head_drop_elem_of in Hc. apply N.eqb_neq. intros ->.
      rewrite elem_of_app, list_elem_of_singleton in Hc.
      destruct Hc as [Hc|?]; [|done]. by apply Hdigit in Hc. }
  assert (exec re1 (tracePath ++ [40] ++ fileName ++ [58] ++ lineStr ++ [41])
          = Some [tracePath; fileName; lineStr]) as H1.
  { apply exec_capture_longest.
    - eapply Forall_impl; [exact Htp|]. simpl. by intros c ->.
    - simpl. lia.
    - by rewrite <- H2.
    - intros [|m] Hm; [lia|]. apply exec_One_None. intros c Hc. simpl in *.
      apply head_drop_elem_of in Hc. apply N.eqb_neq. intros ->.
      rewrite !elem_of_app, !elem_of_cons, elem_of_app,
        list_elem_of_singleton in Hc.
      destruct Hc as [?|[?|[Hc|?]]]; try done. by apply Hdigit in Hc. }
  by rewrite <- H1.
Qed.

End CaptureFacts.

(** ** Lines of a trace *)

Section LineFacts.

Lemma splitLines_cons c s :
  splitLines (c :: s) =
    if c =? 10 then [] :: splitLines s
    else if (c =? 13) && bool_decide (head s = Some 10)
         then [] :: splitLines (tail s)
         else cons_piece c (splitLines s).
Proof.
  destruct (c =? 10) eqn:H10; [by apply N.eqb_eq in H10 as ->|].
  destruct (c =? 13) eqn:H13.
  - apply N.eqb_eq in H13 as ->. simpl.
    destruct s as [|c' s]; [done|]. simpl.
    destruct (decide (c' = 10)) as [->|Hne].
    + done.
    + rewrite bool_decide_eq_false_2 by congruence.
      destruct c' as [|p]; [done|].
      do 4 (try destruct p as [p|p|]); done.
  - apply N.eqb_neq in H10, H13. simpl.
    destruct c as [|p]; [done|].
    do 4 (try destruct p as [p|p|]); done.
Qed.

Lemma splitLines_no_LF s : 10 ∉ s → splitLines s = [s].
Proof.
  induction s as [|c s IH]; [done|]. rewrite not_elem_of_cons. intros [Hc Hs].
  rewrite splitLines_cons, (proj2 (N.eqb_neq _ _)) by done.
  rewrite IH by done.
  destruct (c =? 13); [|done]. simpl.
  rewrite bool_decide_eq_false_2; [done|].
  destruct s as [|c' s]; [done|]. simpl. intros [= ->].
  apply Hs, list_elem_of_here.
Qed.

Lemma splitLines_LF line s :
  10 ∉ line → last line ≠ Some 13 →
  splitLines (line ++ [10] ++ s) = line :: splitLines s.
Proof.
  induction line as [|c line IH]; [done|].
  rewrite not_elem_of_cons. intros [Hc Hline] Hlast.
  change ((c :: line) ++ [10] ++ s) with (c :: (line ++ [10] ++ s)).
  rewrite splitLines_cons, (proj2 (N.eqb_neq _ _)) by done.
  destruct line as [|c' line].
  - simpl in *. rewrite (proj2 (N.eqb_neq c 13)) by congruence. done.
  - rewrite IH by (by rewrite ?last_cons_cons in Hlast).
    destruct (c =? 13); [|done]. simpl.
    rewrite bool_decide_eq_false_2; [done|]. intros [= ->].
    apply Hline, list_elem_of_here.
Qed.

Lemma splitLines_CRLF line s :
  10 ∉ line →
  splitLines (line ++ [13; 10] ++ s) = line :: splitLines s.
Proof.
  induction line as [|c line IH]; [done|].
  rewrite not_elem_of_cons. intros [Hc Hline].
  change ((c :: line) ++ [13; 10] ++ s) with (c :: (line ++ [13; 10] ++ s)).
  rewrite splitLines_cons, (proj2 (N.eqb_neq _ _)) by done.
  rewrite IH by done.
  destruct (c =? 13); [|done]. simpl.
  rewrite bool_decide_eq_false_2; [done|].
  destruct line as [|c' line]; [done|]. simpl. intros [= ->].
  apply Hline, list_elem_of_here.
Qed.

(** X7. Splitting undoes joining: lines that hold no line feed come back
    from a text in which they are separated by carriage return and line
    feed, and also from one separated by line feeds alone when no line
    ends with a carriage return. *)
Theorem splitLines_join lines :
  lines ≠ [] →
  Forall (λ line, 10 ∉ line) lines →
  splitLines (join [13; 10] lines) = lines
  ∧ (Forall (λ line, last line ≠ Some 13) lines →
     splitLines (join [10] lines) = lines).
Proof.
  intros Hne Hall. split.
  - induction Hall as [|line lines Hline Hall IH]; [done|].
    destruct lines as [|line' lines]; [by apply splitLines_no_LF|].
    change (join [13; 10] (line :: line' :: lines))
      with (line ++ [13; 10] ++ join [13; 10] (line' :: lines)).
    rewrite splitLines_CRLF by done. by rewrite IH.
  - intros Hcr.
    induction Hall as [|line lines Hline Hall IH]; [done|].
    apply Forall_cons in Hcr as [Hcr Hcrs].
    destruct lines as [|line' lines]; [by apply splitLines_no_LF|].
    change (join [10] (line :: line' :: lines))
      with (line ++ [10] ++ join [10] (line' :: lines)).
    rewrite splitLines_LF by done. by rewrite IH.
Qed.

End LineFacts.

(** ** The index of tracked files *)

Section IndexFacts.

Variable normalizeFilePath : jsstring → jsstring.

(** X1. The constructor returns an instance exactly when no tracked file
    has a base name that objects inherit, and throws otherwise. The index
    of the instance files every tracked path, normalized, under the base
    name of the path as given: reading a name yields, in tracked order,
    the normalized forms of exactly the tracked paths with that base
    name; it yields [undefined] when there is none and the name is not
    inherited, and the inherited value when the name is inherited. *)
Theorem constructor_index_lookup options :
  let tracked := Options.trackedFiles options in
  ((∃ self, new normalizeFilePath options = Return self) ↔
   Forall (λ raw, Path.basename raw ∉ JsObject.inherited_names) tracked)
  ∧ (new normalizeFilePath options = Throw mkTypeError ↔
     Exists (λ raw, Path.basename raw ∈ JsObject.inherited_names) tracked)
  ∧ ∀ self,
      new normalizeFilePath options = Return self →
      DotnetNunitParser.options self = options
      ∧ ∀ fileName,
          let value := JsObject.get (trackedFiles self) fileName in
          (value = JsObject.Undefined ↔
           (fileName ∉ JsObject.inherited_names)
           ∧ (∀ raw, raw ∈ tracked → Path.basename raw ≠ fileName))
          ∧ (value = JsObject.Inherited ↔
             fileName ∈ JsObject.inherited_names)
          ∧ (∀ files, value = JsObject.Own files →
               files ≠ []
               ∧ files = normalizeFilePath <$>
                           filter (λ raw, Path.basename raw = fileName) tracked)
          ∧ (∀ raw, raw ∈ tracked → Path.basename raw = fileName →
               ∃ files, value = JsObject.Own files
                        ∧ normalizeFilePath raw ∈ files).
Proof.
  intros tracked. unfold tracked.
  split; [apply new_Return|]. split.
  - pose proof (new_Return normalizeFilePath options) as Hret.
    destruct (new normalizeFilePath options) as [self|[]] eqn:Hnew.
    + split; [done|]. intros (raw & Hin & Hbase)%Exists_exists. exfalso.
      assert (Forall (λ raw, Path.basename raw ∉ JsObject.inherited_names)
                (Options.trackedFiles options)) as Hall
        by (apply Hret; by eexists).
      rewrite Forall_forall in Hall. by apply (Hall raw).
    + split; [|done]. intros _.
      destruct (decide (Exists
          (λ raw, Path.basename raw ∈ JsObject.inherited_names)
          (Options.trackedFiles options))) as [|Hnone]; [done|].
      exfalso. apply not_Exists_Forall in Hnone; [|apply _].
      apply Hret in Hnone as [self ?]. done.
  - intros self Hnew. split; [by apply (new_trackedFiles _ _ _ [] Hnew)|].
    intros fileName. cbv zeta.
    destruct (new_trackedFiles _ _ _ fileName Hnew) as [_ Hlook].
    unfold Spec.candidates in Hlook.
    assert (∀ raw, raw ∈ Options.trackedFiles options →
                   Path.basename raw = fileName →
                   raw ∈ filter (λ raw, Path.basename raw = fileName)
                           (Options.trackedFiles options)) as Hfilter
      by (intros; by apply list_elem_of_filter).
    split; [|split; [|split]].
    + rewrite get_Undefined, Hlook.
      destruct (filter _ _) as [|raw0 l] eqn:Hf; simpl.
      * split; [|tauto]. intros [_ Hown]. split; [done|].
        intros raw Hraw Hbase. specialize (Hfilter raw Hraw Hbase).
        by apply elem_of_nil in Hfilter.
      * split; [by intros [? _]|]. intros [_ Hnone]. exfalso.
        assert (raw0 ∈ filter (λ raw, Path.basename raw = fileName)
                          (Options.trackedFiles options)) as Hin
          by (rewrite Hf; apply list_elem_of_here).
        apply list_elem_of_filter in Hin as [Hbase Hin].
        by apply (Hnone raw0).
    + rewrite get_Inherited. split; [tauto|]. intros Hin.
      split; [|done]. by apply (new_owns_no_inherited _ _ _ _ Hnew).
    + intros files. rewrite get_Own, Hlook.
      destruct (filter _ _) as [|raw0 l]; simpl; [done|]. by intros [= <-].
    + intros raw Hraw Hbase. specialize (Hfilter raw Hraw Hbase).
      destruct (filter _ _) as [|raw0 l] eqn:Hf; simpl in Hlook.
      * by apply elem_of_nil in Hfilter.
      * eexists. rewrite get_Own. split; [exact Hlook|].
        change (normalizeFilePath raw ∈ normalizeFilePath <$> raw0 :: l).
        by apply list_elem_of_fmap_2.
Qed.

(** A path that resolves is the normalized form of a tracked file with
    the requested base name. *)
Lemma getFilePath_tracked options self tracePath fileName filePath :
  new normalizeFilePath options = Return self →
  getFilePath self tracePath fileName = Return (Some filePath) →
  ∃ raw, raw ∈ Options.trackedFiles options
         ∧ Path.basename raw = fileName
         ∧ filePath = normalizeFilePath raw.
Proof.
  intros Hnew. rewrite (getFilePath_spec _ _ _ _ _ Hnew).
  destruct (packageParts tracePath) as [|part parts]; [done|].
  destruct (bool_decide _); [done|]. intros [= Hhead].
  destruct (head_filter_Some _ _ _ Hhead) as (i & Hi & _).
  apply list_elem_of_lookup_2 in Hi.
  apply list_elem_of_fmap in Hi as (raw & -> & Hraw).
  apply list_elem_of_filter in Hraw as [? ?]. by exists raw.
Qed.

End IndexFacts.

(** ** The package parts *)

Lemma split_pieces_no_sep sep s : Forall (λ piece, sep ∉ piece) (split sep s).
Proof.
  induction s as [|c s IH]; simpl.
  - constructor; [apply not_elem_of_nil|done].
  - destruct (c =? sep) eqn:Hc.
    + constructor; [apply not_elem_of_nil|done].
    + apply N.eqb_neq in Hc. destruct IH as [|piece pieces Hp Hps]; simpl.
      * constructor; [|done]. rewrite not_elem_of_cons. split; [done|].
        apply not_elem_of_nil.
      * constructor; [|done]. rewrite not_elem_of_cons. by split.
Qed.

Lemma before_first_split {A} (p : A → bool) l :
  ∃ rest,
    l = Spec.before_first p l ++ rest
    ∧ Forall (λ x, p x = false) (Spec.before_first p l)
    ∧ (∀ x, head rest = Some x → p x = true).
Proof.
  induction l as [|x l (rest & Hl & Hall & Hrest)]; simpl.
  - by exists [].
  - destruct (p x) eqn:Hx.
    + exists (x :: l). split; [done|]. split; [done|]. by intros ? [= <-].
    + exists rest. split; [by rewrite Hl at 1|]. split; [by constructor|done].
Qed.

Lemma packageParts_no_dot tracePath :
  Forall (λ part, 46 ∉ part) (packageParts tracePath).
Proof.
  rewrite packageParts_before_first.
  destruct (before_first_split starts_upto_Z (split 46 tracePath))
    as (rest & Hsplit & _).
  pose proof (split_pieces_no_sep 46 tracePath) as Hdots.
  rewrite Hsplit in Hdots. by apply Forall_app in Hdots as [Hdots _].
Qed.

(** X2. The package parts are the leading pieces of the trace path, cut
    at the dots: none of them holds a dot, none starts with a character
    up to 'Z' (an empty piece is kept), and the piece at which the cut is
    made, when there is one, does start with such a character. *)
Theorem packageParts_leading_pieces tracePath :
  ∃ rest,
    split 46 tracePath = packageParts tracePath ++ rest
    ∧ Forall (λ part, (46 ∉ part) ∧ (∀ c, head part = Some c → 90 < c))
        (packageParts tracePath)
    ∧ (∀ part, head rest = Some part → ∃ c, head part = Some c ∧ c ≤ 90).
Proof.
  rewrite packageParts_before_first.
  destruct (before_first_split starts_upto_Z (split 46 tracePath))
    as (rest & Hsplit & Hall & Hrest).
  exists rest. split; [done|]. split.
  - apply Forall_and. split.
    { rewrite <- packageParts_before_first. apply packageParts_no_dot. }
    eapply Forall_impl; [exact Hall|]. simpl. intros part Hpart c Hc.
    destruct part as [|c' part]; simplify_eq/=. by apply N.leb_gt.
  - intros part Hpart. specialize (Hrest part Hpart).
    destruct part as [|c part]; [done|]. exists c. split; [done|].
    by apply N.leb_le.
Qed.

(** ** Resolved paths *)

Lemma dirname_scan_no_slash l matchedSlash :
  Path.slash ∉ l → Path.dirname_scan l matchedSlash = None.
Proof.
  revert matchedSlash. induction l as [|c l IH]; intros ms; [done|].
  rewrite not_elem_of_cons. intros [Hc Hl]. simpl. unfold Path.is_slash.
  rewrite (proj2 (N.eqb_neq _ _)) by done. by apply IH.
Qed.

(** A path without a slash lies in the directory ".". *)
Lemma dirname_no_slash p : Path.slash ∉ p → Path.dirname p = js ".".
Proof.
  destruct p as [|c0 rest]; [done|]. rewrite not_elem_of_cons.
  intros [Hc Hrest]. unfold Path.dirname.
  rewrite dirname_scan_no_slash by (by rewrite elem_of_reverse).
  unfold Path.is_slash. by rewrite (proj2 (N.eqb_neq _ _)).
Qed.

(** X3. Whatever the index holds, a path that [getFilePath] returns is
    one of the paths filed under the requested name, its last directories
    are the package parts, of which there is at least one, and it holds a
    slash: a file that lies in no directory is never resolved. *)
Theorem getFilePath_needs_directory self tracePath fileName filePath :
  getFilePath self tracePath fileName = Return (Some filePath) →
  (∃ files, trackedFiles self !! fileName = Some files ∧ filePath ∈ files)
  ∧ packageParts tracePath ≠ []
  ∧ Spec.mirrors (packageParts tracePath) filePath
  ∧ Path.slash ∈ filePath.
Proof.
  unfold getFilePath.
  destruct (JsObject.get (trackedFiles self) fileName) as [files| |] eqn:Hget;
    [| |done].
  2:{ by destruct (length (packageParts tracePath) =? 0)%nat. }
  apply get_Own in Hget.
  destruct (packageParts tracePath) as [|part parts] eqn:Hparts; [done|].
  cbn [length Nat.eqb]. rewrite getFilePath_loop_spec. intros [= Hhead].
  destruct (head_filter_Some _ _ _ Hhead) as (i & Hi & Hm & _).
  split; [exists files; split; [done|by eapply list_elem_of_lookup_2]|].
  split; [done|]. split; [done|].
  destruct (decide (Path.slash ∈ filePath)) as [|Hno]; [done|]. exfalso.
  destruct Hm as [Hlen Hdrop]. unfold Spec.dir_components in *.
  rewrite (dirname_no_slash _ Hno) in *.
  change (split Path.slash (js ".")) with [[46]] in *.
  destruct parts as [|? ?]; [|simpl in Hlen; lia].
  simpl in Hdrop. injection Hdrop as <-.
  pose proof (packageParts_no_dot tracePath) as Hall.
  rewrite Hparts in Hall. apply Forall_cons in Hall as [Hdot _].
  apply Hdot, list_elem_of_here.
Qed.

(** ** The scan of a trace *)

(** X4. A line made of "at ", a trace path, "(", a file name without
    opening parenthesis, ":", decimal digits and ")" is a frame whose
    groups are exactly the trace path, the file name and the digits (the
    greedy first group runs up to the last opening parenthesis). On such
    a line the scan does what the resolution of the frame does: it
    answers with the path and the line when the frame resolves, goes on
    with the following lines when it does not, and throws when the
    resolution throws. *)
Theorem frame_line_captures tracePath fileName lineStr :
  Forall (λ c, Regex.is_line_terminator c = false) tracePath →
  Forall (λ c, Regex.is_line_terminator c = false) fileName →
  40 ∉ fileName →
  Forall (λ c, Regex.is_digit c = true) lineStr →
  lineStr ≠ [] →
  let line := js "at " ++ tracePath ++ js "(" ++ fileName ++ js ":"
                ++ lineStr ++ js ")" in
  Regex.exec re line = Some [tracePath; fileName; lineStr]
  ∧ ∀ self lines,
      exceptionThrowSource_loop self (line :: lines) =
        match getFilePath self tracePath fileName with
        | Return (Some filePath) =>
            Return (Some (filePath, parseInt_digits lineStr))
        | Return None => exceptionThrowSource_loop self lines
        | Throw e => Throw e
        end.
Proof.
  intros Htp Hfn Hparen Hln Hne line.
  assert (Regex.exec re line = Some [tracePath; fileName; lineStr]) as Hexec
    by (by apply exec_re_frame).
  split; [done|]. intros self lines.
  cbn [exceptionThrowSource_loop]. rewrite Hexec.
  by destruct (getFilePath self tracePath fileName) as [[p|]|].
Qed.

Lemma frame_line_captures_witness :
  Regex.exec re (js "at com.foo.Bar.baz(constructor:42)")
  = Some [js "com.foo.Bar.baz"; js "constructor"; js "42"]
  ∧ exceptionThrowSource_loop Examples.bar_parser
      [js "at com.foo.Bar.baz(constructor:42)";
       js "at com.foo.Bar.baz(Bar.java:42)"]
    = Throw mkTypeError.
Proof.
  destruct (frame_line_captures (js "com.foo.Bar.baz") (js "constructor")
              (js "42")) as [Hexec Hscan].
  - by repeat constructor.
  - by repeat constructor.
  - vm_compute. intros H. by repeat (apply elem_of_cons in H as [?|H]; [done|]);
      apply elem_of_nil in H.
  - by repeat constructor.
  - done.
  - split; [exact Hexec|].
    exact (eq_trans
             (Hscan Examples.bar_parser [js "at com.foo.Bar.baz(Bar.java:42)"])
             eq_refl).
Defined.

Lemma exceptionThrowSource_loop_None self lines :
  exceptionThrowSource_loop self lines = Return None ↔
  Forall (λ str, ∀ tracePath fileName lineStr,
            Regex.exec re str = Some [tracePath; fileName; lineStr] →
            getFilePath self tracePath fileName = Return None) lines.
Proof.
  induction lines as [|str lines IH]; [done|].
  cbn [exceptionThrowSource_loop]. rewrite Forall_cons.
  destruct (Regex.exec re str) as [caps|] eqn:Hexec.
  - destruct (exec_re_shape _ _ Hexec) as (tp & fn & ln & -> & _).
    destruct (getFilePath self tp fn) as [[p|]|] eqn:Hpath;
      cbn [mbind Result_bind].
    + split; [done|]. intros [Hstr _]. by rewrite (Hstr tp fn ln) in Hpath.
    + rewrite IH. split; [|by intros [_ ?]]. intros Hall. split; [|done].
      intros tp' fn' ln' [= <- <- <-]. done.
    + split; [done|]. intros [Hstr _]. by rewrite (Hstr tp fn ln) in Hpath.
  - rewrite IH. split; [|by intros [_ ?]]. intros Hall. split; [|done]. done.
Qed.

(** The scan throws at the first frame whose resolution throws, when no
    frame before it resolves. *)
Lemma exceptionThrowSource_loop_Throw self lines e :
  exceptionThrowSource_loop self lines = Throw e ↔
  ∃ i str tracePath fileName lineStr,
    lines !! i = Some str
    ∧ Regex.exec re str = Some [tracePath; fileName; lineStr]
    ∧ getFilePath self tracePath fileName = Throw e
    ∧ ∀ j str', (j < i)%nat → lines !! j = Some str' →
        ∀ tp fn ln, Regex.exec re str' = Some [tp; fn; ln] →
                    getFilePath self tp fn = Return None.
Proof.
  induction lines as [|str lines IH].
  { split; [done|]. by intros (i & str & ? & ? & ? & ? & _). }
  assert (∀ (P : jsstring → Prop) i,
            (∀ j str', (j < S i)%nat → (str :: lines) !! j = Some str' → P str')
            ↔ P str ∧ ∀ j str', (j < i)%nat → lines !! j = Some str' → P str')
    as Hshift.
  { intros P i. split.
    - intros H. split; [apply (H 0%nat); [lia|done]|].
      intros j str' Hj Hlook. apply (H (S j)); [lia|done].
    - intros [H0 H] [|j] str' Hj Hlook; simpl in Hlook.
      + by injection Hlook as <-.
      + apply (H j); [lia|done]. }
  cbn [exceptionThrowSource_loop].
  destruct (Regex.exec re str) as [caps|] eqn:Hexec.
  - destruct (exec_re_shape _ _ Hexec) as (tp & fn & ln & -> & _).
    destruct (getFilePath self tp fn) as [[p|]|e'] eqn:Hpath;
      cbn [mbind Result_bind].
    + split; [done|]. intros ([|i] & str' & tp' & fn' & ln' & Hlook & Hex
                                & Hthrow & Hbefore).
      * injection Hlook as <-. congruence.
      * apply (Hshift (λ s, ∀ tp fn ln, Regex.exec re s = Some [tp; fn; ln] →
                              getFilePath self tp fn = Return None)) in Hbefore
          as [H0 _].
        specialize (H0 tp fn ln Hexec). congruence.
    + rewrite IH. split.
      * intros (i & str' & tp' & fn' & ln' & Hlook & Hex & Hthrow & Hbefore).
        exists (S i), str', tp', fn', ln'. repeat split; try done.
        apply (Hshift (λ s, ∀ tp fn ln, Regex.exec re s = Some [tp; fn; ln] →
                              getFilePath self tp fn = Return None)).
        split; [|done]. intros tp0 fn0 ln0 Hex0. congruence.
      * intros ([|i] & str' & tp' & fn' & ln' & Hlook & Hex & Hthrow & Hbefore).
        -- injection Hlook as <-. congruence.
        -- exists i, str', tp', fn', ln'. repeat split; try done.
           by apply (Hshift (λ s, ∀ tp fn ln,
                               Regex.exec re s = Some [tp; fn; ln] →
                               getFilePath self tp fn = Return None)) in Hbefore
             as [_ ?].
    + split.
      * intros [= <-]. exists 0%nat, str, tp, fn, ln. repeat split; try done.
        intros j str' Hj. lia.
      * intros ([|i] & str' & tp' & fn' & ln' & Hlook & Hex & Hthrow & Hbefore).
        -- injection Hlook as <-. congruence.
        -- apply (Hshift (λ s, ∀ tp fn ln,
                            Regex.exec re s = Some [tp; fn; ln] →
                            getFilePath self tp fn = Return None)) in Hbefore
             as [H0 _].
           specialize (H0 tp fn ln Hexec). congruence.
  - rewrite IH. split.
    + intros (i & str' & tp' & fn' & ln' & Hlook & Hex & Hthrow & Hbefore).
      exists (S i), str', tp', fn', ln'. repeat split; try done.
      apply (Hshift (λ s, ∀ tp fn ln, Regex.exec re s = Some [tp; fn; ln] →
                            getFilePath self tp fn = Return None)).
      split; [|done]. intros tp0 fn0 ln0 Hex0. congruence.
    + intros ([|i] & str' & tp' & fn' & ln' & Hlook & Hex & Hthrow & Hbefore).
      * injection Hlook as <-. congruence.
      * exists i, str', tp', fn', ln'. repeat split; try done.
        by apply (Hshift (λ s, ∀ tp fn ln,
                            Regex.exec re s = Some [tp; fn; ln] →
                            getFilePath self tp fn = Return None)) in Hbefore
          as [_ ?].
Qed.

(** X5. The scan answers with the first line, in the order of the trace,
    that is a frame and resolves, and with the digits of that frame as
    line; it answers nothing exactly when the resolution of every line
    that is a frame returns nothing; and it throws exactly when the
    resolution of a frame throws and that of every frame before it
    returns nothing. *)
Theorem exceptionThrowSource_first_resolving_frame self stackTrace :
  (∀ filePath line,
     exceptionThrowSource self stackTrace = Return (Some (filePath, line)) →
     ∃ i str tracePath fileName lineStr,
       splitLines stackTrace !! i = Some str
       ∧ Regex.exec re str = Some [tracePath; fileName; lineStr]
       ∧ getFilePath self tracePath fileName = Return (Some filePath)
       ∧ line = parseInt_digits lineStr
       ∧ ∀ j str', (j < i)%nat → splitLines stackTrace !! j = Some str' →
           ∀ tp fn ln, Regex.exec re str' = Some [tp; fn; ln] →
                       getFilePath self tp fn = Return None)
  ∧ (exceptionThrowSource self stackTrace = Return None ↔
     ∀ str tracePath fileName lineStr,
       str ∈ splitLines stackTrace →
       Regex.exec re str = Some [tracePath; fileName; lineStr] →
       getFilePath self tracePath fileName = Return None)
  ∧ (∀ e,
       exceptionThrowSource self stackTrace = Throw e ↔
       ∃ i str tracePath fileName lineStr,
         splitLines stackTrace !! i = Some str
         ∧ Regex.exec re str = Some [tracePath; fileName; lineStr]
         ∧ getFilePath self tracePath fileName = Throw e
         ∧ ∀ j str', (j < i)%nat → splitLines stackTrace !! j = Some str' →
             ∀ tp fn ln, Regex.exec re str' = Some [tp; fn; ln] →
                         getFilePath self tp fn = Return None).
Proof.
  unfold exceptionThrowSource. split; [|split].
  - intros filePath line. apply exceptionThrowSource_loop_first.
  - rewrite exceptionThrowSource_loop_None, Forall_forall.
    split; intros H; intros; by eapply H.
  - intros e. apply exceptionThrowSource_loop_Throw.
Qed.

Lemma exceptionThrowSource_first_resolving_frame_witness :
  ∃ i str tracePath fileName lineStr,
    splitLines (js "at org.lib.Tool.run(Tool.java:7)" ++ [10]
                  ++ js "at com.foo.Bar.baz(Bar.java:42)") !! i = Some str
    ∧ Regex.exec re str = Some [tracePath; fileName; lineStr]
    ∧ getFilePath Examples.bar_parser tracePath fileName
      = Return (Some (js "src/com/foo/Bar.java"))
    ∧ of_Z 42 = parseInt_digits lineStr.
Proof.
  destruct (proj1 (exceptionThrowSource_first_resolving_frame
                     Examples.bar_parser
                     (js "at org.lib.Tool.run(Tool.java:7)" ++ [10]
                        ++ js "at com.foo.Bar.baz(Bar.java:42)"))
              (js "src/com/foo/Bar.java") (of_Z 42))
    as (i & str & tp & fn & ln & ? & ? & ? & ? & _); [by vm_compute|].
  by exists i, str, tp, fn, ln.
Defined.

(** ** The error of a case *)

Section ErrorFacts.

Variable normalizeFilePath : jsstring → jsstring.

(** X6. For an instance that the constructor returned,
    [getTestCaseError] answers with no error exactly when error parsing
    is off or the case has no failure. Otherwise it throws, exactly when
    the scan of the stack trace throws, or it answers with an error. The
    error carries the stack trace as detail and the message of the
    failure; its path and its line come together or not at all; and a
    path it reports is the normalized form of a tracked file. *)
Theorem getTestCaseError_reports_tracked_files options self tc :
  new normalizeFilePath options = Return self →
  (getTestCaseError self tc = Return None ↔
   parseErrors options = false ∨ failure tc = None)
  ∧ (∀ e, getTestCaseError self tc = Throw e ↔
       parseErrors options = true
       ∧ ∃ f, failure tc = Some f
              ∧ exceptionThrowSource self (stack_trace f) = Throw e)
  ∧ ∀ e, getTestCaseError self tc = Return (Some e) →
      parseErrors options = true
      ∧ ∃ f, failure tc = Some f
             ∧ err_details e = stack_trace f
             ∧ err_message e = Some (message f)
             ∧ (is_Some (err_path e) ↔ is_Some (err_line e))
             ∧ ∀ filePath, err_path e = Some filePath →
                 ∃ raw, raw ∈ Options.trackedFiles options
                        ∧ filePath = normalizeFilePath raw.
Proof.
  intros Hnew. unfold getTestCaseError.
  destruct (new_trackedFiles _ _ _ [] Hnew) as [-> _].
  destruct (parseErrors options); simpl.
  2:{ split; [split; [by left|done]|]. split; [|done].
      intros e. split; [done|by intros [? _]]. }
  destruct (failure tc) as [f|]; simpl.
  2:{ split; [split; [by right|done]|]. split; [|done].
      intros e. split; [done|by intros (_ & ? & ? & _)]. }
  destruct (exceptionThrowSource self (stack_trace f)) as [src|e'] eqn:Hsrc;
    simpl.
  - split; [split; [done|by intros [?|?]]|]. split.
    + intros e. split; [done|]. intros (_ & f' & [= <-] & Hthrow). congruence.
    + intros e [= <-]. split; [done|]. exists f. simpl.
      repeat split; try done.
      * destruct src; simpl; [by eexists|]. by intros [? ?].
      * destruct src; simpl; [by eexists|]. by intros [? ?].
      * intros filePath Hpath. destruct src as [[p n]|]; [|done].
        simpl in Hpath. injection Hpath as ->.
        apply exceptionThrowSource_loop_first in Hsrc
          as (_ & _ & tp & fn & _ & _ & _ & Hres & _).
        apply (getFilePath_tracked _ _ _ _ _ _ Hnew) in Hres
          as (raw & ? & _ & ?).
        by exists raw.
  - split; [split; [done|by intros [?|?]]|]. split; [|done].
    intros e. split.
    + intros [= <-]. split; [done|]. by exists f.
    + intros (_ & f' & [= <-] & Hthrow). congruence.
Qed.

End ErrorFacts.

Lemma getTestCaseError_reports_tracked_files_witness :
  ∃ f, failure Examples.bar_case = Some f
       ∧ stack_trace f = js "at com.foo.Bar.baz(Bar.java:42)".
Proof.
  destruct (proj2 (proj2 (getTestCaseError_reports_tracked_files
                            Examples.normalizeFilePath Examples.bar_options
                            Examples.bar_parser Examples.bar_case
                            new_bar_parser))
              {| err_path := Some (js "src/com/foo/Bar.java");
                 err_line := Some (of_Z 42);
                 err_details := js "at com.foo.Bar.baz(Bar.java:42)";
                 err_message := Some (js "boom") |})
    as (_ & f & Hf & Hd & _); [by vm_compute|].
  exists f. split; [done|]. by rewrite <- Hd.
Defined.

(** ** Durations and names in the result *)

(** X10. The duration of a suite result, and of a case result, is NaN
    exactly when the duration attribute does not parse: the product with
    1000 neither produces nor hides a NaN. *)
Theorem duration_NaN_iff_unparsed :
  (∀ ts depth,
     isNaN (tsr_time (suiteResult ts depth))
     = isNaN (parseFloat (ts_duration (ts_attrs ts))))
  ∧ (∀ tc,
       isNaN (tcr_time (caseResult tc))
       = isNaN (parseFloat (tc_duration (tc_attrs tc)))).
Proof. split; intros; apply isNaN_mul_1000. Qed.

(** X11. The duration of the run, when the result has one, is never
    NaN. *)
Theorem run_duration_never_NaN filePath nunit time :
  trr_time (getTestRunResult filePath nunit) = Some time →
  isNaN time = false.
Proof.
  unfold getTestRunResult. simpl.
  destruct (isNaN (parseFloat_opt _)) eqn:Hnan; [done|].
  intros [= <-]. by rewrite isNaN_mul_1000.
Qed.

Lemma run_duration_never_NaN_witness : isNaN (of_Z 2000) = false.
Proof.
  apply (run_duration_never_NaN (js "report.xml") Examples.bar_report).
  reflexivity.
Defined.

(** X12. Every name in the result of a run, of a suite or of a case, is
    free of white space at both ends. *)
Theorem names_are_trimmed filePath nunit :
  Forall (λ sr,
     Spec.trimmed (tsr_name sr)
     ∧ Forall (λ g, Forall (λ r, Spec.trimmed (tcr_name r)) (tgr_tests g))
         (tsr_groups sr))
    (trr_suites (getTestRunResult filePath nunit)).
Proof.
  assert (∀ s, Spec.trimmed (trim s)) as Htrim.
  { intros s. destruct (trim_spec s) as (_ & _ & _ & _ & _ & ? & ?).
    by split. }
  unfold getTestRunResult. simpl.
  rewrite getTestSuiteResultRecursive_preorder. simpl.
  eapply Forall_impl; [apply preorder_results|].
  intros sr (ts & d & ->). simpl. split; [apply Htrim|].
  rewrite getGroups_spec. destruct (ts_test_case ts) as [cases|]; [|done].
  apply Forall_fmap, Forall_forall. intros k _. simpl.
  apply Forall_fmap, Forall_forall. intros tc _. apply Htrim.
Qed.

(** X13. Whatever the options and the tracked files, no case result of a
    parse carries an error: the result is built without consulting
    [getTestCaseError]. *)
Theorem parse_never_reports_errors {XmlError}
    (parseStringPromise : jsstring → Promise XmlError Raw.NunitReport)
    (toString : XmlError → jsstring) self filePath content result :
  parse parseStringPromise toString self filePath content = Resolved result →
  Forall (λ sr,
     Forall (λ g, Forall (λ r, tcr_error r = None) (Raw.tgr_tests g))
       (Raw.tsr_groups sr))
    (Raw.trr_suites result).
Proof.
  unfold parse, getNunitReport.
  destruct (parseStringPromise content) as [report|cause]; [|done].
  destruct (RunTime.getTestRunResult filePath report) as [result'|] eqn:Hrun;
    [|done].
  intros [= <-]. by eapply getTestRunResult_error_absent_at_run_time.
Qed.

Lemma parse_never_reports_errors_witness :
  Forall (λ sr,
     Forall (λ g, Forall (λ r, tcr_error r = None) (Raw.tgr_tests g))
       (Raw.tsr_groups sr))
    (Raw.trr_suites
       (ToRaw.result
          (getTestRunResult (js "report.xml") Examples.bar_report))).
Proof.
  apply (parse_never_reports_errors Examples.one_document id
           Examples.bar_parser (js "report.xml")
           (js "<test-run time='2'>...</test-run>")).
  reflexivity.
Defined.

(** ** Witnesses *)

Lemma splitLines_join_witness :
  splitLines (js "first" ++ [13; 10] ++ js "second")
  = [js "first"; js "second"]
  ∧ splitLines (js "first" ++ [10] ++ js "second")
    = [js "first"; js "second"].
Proof.
  assert ([js "first"; js "second"] ≠ []) as Hne by done.
  assert (Forall (λ line, 10 ∉ line) [js "first"; js "second"]) as Hlf.
  { repeat constructor; vm_compute; intros H;
      repeat (apply elem_of_cons in H as [?|H]; [done|]);
      by apply elem_of_nil in H. }
  destruct (splitLines_join [js "first"; js "second"] Hne Hlf) as [Hcrlf Hlf'].
  split; [exact Hcrlf|]. apply Hlf'. by repeat constructor.
Defined.

Lemma getFilePath_needs_directory_witness :
  Path.slash ∈ js "src/com/foo/Bar.java".
Proof.
  apply (getFilePath_needs_directory Examples.bar_parser
           (js "com.foo.Bar.baz") (js "Bar.java")).
  vm_compute. reflexivity.
Defined.

Lemma constructor_index_lookup_witness :
  (∃ files,
     JsObject.get (trackedFiles Examples.bar_parser) (js "Bar.java")
     = JsObject.Own files
     ∧ js "src/com/foo/Bar.java" ∈ files)
  ∧ new Examples.normalizeFilePath Examples.constructor_options
    = Throw mkTypeError.
Proof.
  split.
  - destruct (constructor_index_lookup Examples.normalizeFilePath
                Examples.bar_options) as (_ & _ & Hreturn).
    destruct (Hreturn Examples.bar_parser new_bar_parser) as [_ Hlookup].
    destruct (Hlookup (js "Bar.java")) as (_ & _ & _ & Hin).
    apply (Hin (js "src/com/foo/Bar.java")); [apply list_elem_of_here|].
    reflexivity.
  - destruct (constructor_index_lookup Examples.normalizeFilePath
                Examples.constructor_options) as (_ & Hthrow & _).
    apply Hthrow. apply Exists_cons_hd. vm_compute.
    apply list_elem_of_here.
Defined.

Lemma packageParts_leading_pieces_witness :
  ∃ c, head (js "Bar") = Some c ∧ c ≤ 90.
Proof.
  destruct (packageParts_leading_pieces (js "com.foo.Bar.baz"))
    as (rest & Hsplit & _ & Hcut).
  vm_compute in Hsplit. injection Hsplit as <-.
  apply Hcut. reflexivity.
Defined.
